(** * Planday GRPO reward functions: a shallow embedding

    The reward code of the notebook [train_grpo] (format_reward, score_reward,
    sorted_events_reward, with get_events, time_to_minutes, minutes_to_time
    and the two compiled patterns) is embedded below, followed by the session
    identifiers of the frontend.

    Modelling conventions.
    - Python [str] is a list of characters [text]; characters are Rocq's
      8-bit [ascii], so the development covers ASCII text.  The classes
      [\d] and [\s] are the ASCII members of Python's classes.
    - [re] is a backtracking engine; [rmatch] is a backtracking matcher in
      continuation-passing style with greedy quantifiers and numbered groups.
    - Exceptions are values of [result]: [Err ValueError],
      [Err ZeroDivisionError], and in the log branch of score_reward
      [Err IndexError] and [Err OSError].
    - What a function reads from its environment (the random number, the
      clock, the file system) is an argument; what it writes to the log file
      is returned beside its result.
    - Python sets are [gset]; iterating a set is [elements].
    - Python floats are exact rationals [Qc]; [/] is true division. *)

From stdpp Require Import gmap strings list numbers sorting.
From Stdlib Require Import Ascii QArith Qcanon.

Local Open Scope Z_scope.

(** ** Text *)

Abbreviation text := (list ascii).

Coercion String.list_ascii_of_string : string >-> list.

(** ** Exceptions *)

Inductive exn : Type := ValueError | ZeroDivisionError | IndexError | OSError.

Global Instance exn_eq_dec : EqDecision exn.
Proof. solve_decision. Defined.

Inductive result (A : Type) : Type :=
| Ok (a : A)
| Err (e : exn).
Arguments Ok {A} a.
Arguments Err {A} e.

Global Instance result_eq_dec {A : Type} `{EqDecision A} : EqDecision (result A).
Proof. solve_decision. Defined.

Definition bind {A B : Type} (m : result A) (f : A → result B) : result B :=
  match m with
  | Ok a => f a
  | Err e => Err e
  end.

Notation "x ←' m ; k" := (bind m (λ x, k))
  (at level 20, m at level 100, k at level 200, only parsing).

Fixpoint traverse {A B : Type} (f : A → result B) (l : list A) : result (list B) :=
  match l with
  | [] => Ok []
  | x :: l' => y ←' f x; ys ←' traverse f l'; Ok (y :: ys)
  end.

(** ** Regular expressions *)

Inductive regex : Type :=
| Eps
| Lit (l : text)
| Cls (p : ascii → bool)
| Seq (r1 r2 : regex)
| Star (r : regex)
| Group (i : nat) (r : regex).

Definition Plus (r : regex) : regex := Seq r (Star r).

Fixpoint Rep (n : nat) (r : regex) : regex :=
  match n with
  | O => Eps
  | S n' => Seq r (Rep n' r)
  end.

Declare Scope regex_scope.
Delimit Scope regex_scope with re.
Bind Scope regex_scope with regex.
Infix "⋅" := Seq (at level 41, right associativity) : regex_scope.

(** Character classes. *)

Definition in_range (lo hi : N) (c : ascii) : bool :=
  ((lo <=? N_of_ascii c) && (N_of_ascii c <=? hi))%N.

(** [\d] *)
Definition is_digit (c : ascii) : bool := in_range 48 57 c.

(** [\s]: tab, newline, vertical tab, form feed, carriage return, the four
    separators 0x1c-0x1f and the space. *)
Definition is_space (c : ascii) : bool :=
  in_range 9 13 c || in_range 28 32 c.

(** [.] under re.DOTALL *)
Definition any_char (c : ascii) : bool := true.

(** [[^<]] *)
Definition not_lt (c : ascii) : bool := negb (Ascii.eqb c "<"%char).

(** [strip_prefix l s] is [Some s'] when [s = l ++ s']. *)
Fixpoint strip_prefix (l s : text) : option text :=
  match l, s with
  | [], _ => Some s
  | a :: l', c :: s' => if Ascii.eqb a c then strip_prefix l' s' else None
  | _ :: _, [] => None
  end.

Definition groups := gmap nat text.

Section Matcher.
Context {A : Type}.

Definition cont : Type := text → groups → option A.

(** Greedy repetition of [m]: one more round is tried first, the
    continuation afterwards.  A round that consumes nothing is refused,
    so [length s] rounds are enough. *)
Definition iterate (m : text → groups → cont → option A) : nat → text → groups → cont → option A :=
  fix go (fuel : nat) (s : text) (g : groups) (k : cont) : option A :=
    match fuel with
    | O => k s g
    | S fuel' =>
        match m s g (λ s' g',
                if decide (length s' < length s)%nat then go fuel' s' g' k else None) with
        | Some a => Some a
        | None => k s g
        end
    end.

Fixpoint rmatch (r : regex) (s : text) (g : groups) (k : cont) : option A :=
  match r with
  | Eps => k s g
  | Lit l =>
      match strip_prefix l s with
      | Some s' => k s' g
      | None => None
      end
  | Cls p =>
      match s with
      | c :: s' => if p c then k s' g else None
      | [] => None
      end
  | Seq r1 r2 => rmatch r1 s g (λ s' g', rmatch r2 s' g' k)
  | Star r' => iterate (rmatch r') (length s) s g k
  | Group i r' =>
      rmatch r' s g (λ s' g', k s' (<[i := take (length s - length s') s]> g'))
  end.
End Matcher.

(** [pattern.match(s)]: a match anchored at the start of [s]; the result is
    the groups and the text left after the match. *)
Definition re_match (r : regex) (s : text) : option (groups * text) :=
  rmatch r s ∅ (λ s' g, Some (g, s')).

(** [pattern.fullmatch(s)]: the match has to use up [s]. *)
Definition re_fullmatch (r : regex) (s : text) : option groups :=
  rmatch r s ∅ (λ s' g, match s' with [] => Some g | _ :: _ => None end).

(** [pattern.finditer(s)]: non-overlapping matches from left to right.
    After a match the search resumes where the match ended: [skip] counts the
    characters of the current match still to be passed over. *)
Fixpoint finditer_from (r : regex) (skip : nat) (s : text) : list groups :=
  match s with
  | [] => []
  | _ :: s' =>
      match skip with
      | S n => finditer_from r n s'
      | O =>
          match re_match r s with
          | Some (g, rest) => g :: finditer_from r (length s - length rest - 1) s'
          | None => finditer_from r 0 s'
          end
      end
  end.

Definition finditer (r : regex) (s : text) : list groups := finditer_from r 0 s.

(** [match.group(i)]. *)
Definition group (g : groups) (i : nat) : text := default [] (g !! i).

(** ** The patterns *)

(** [\d{2}:\d{2}] *)
Definition time_pattern : regex :=
  (Rep 2 (Cls is_digit) ⋅ Lit ":" ⋅ Rep 2 (Cls is_digit))%re.

(** The text of a start or end field is accepted when it is all of a match
    of [\d{2}:\d{2}]: both patterns put the time between its two tags. *)
Definition accepts_time (s : text) : bool :=
  bool_decide (is_Some (re_fullmatch time_pattern s)).

(** The group of overall_pattern: one event block. *)
Definition overall_event : regex :=
  (Lit "<event>" ⋅ Star (Cls any_char) ⋅
   Lit "<name>" ⋅ Plus (Cls any_char) ⋅ Lit "</name>" ⋅ Star (Cls any_char) ⋅
   Lit "<start>" ⋅ time_pattern ⋅ Lit "</start>" ⋅ Star (Cls any_char) ⋅
   Lit "<end>" ⋅ time_pattern ⋅ Lit "</end>" ⋅ Star (Cls any_char) ⋅
   Lit "</event>")%re.

(** overall_pattern, compiled with re.DOTALL. *)
Definition overall_regex : regex :=
  (Lit "<think>" ⋅ Plus (Cls any_char) ⋅ Lit "</think>" ⋅ Star (Cls any_char) ⋅
   Lit "<schedule>" ⋅ Star (Cls any_char) ⋅
   Plus (Group 1 overall_event) ⋅
   Star (Cls any_char) ⋅ Lit "</schedule>")%re.

(** capture_pattern, compiled with re.VERBOSE (white space in the pattern
    is not part of it). *)
Definition capture_regex : regex :=
  (Lit "<event>" ⋅ Star (Cls is_space) ⋅
   Lit "<name>" ⋅ Group 1 (Plus (Cls not_lt)) ⋅ Lit "</name>" ⋅ Star (Cls is_space) ⋅
   Lit "<start>" ⋅ Group 2 time_pattern ⋅ Lit "</start>" ⋅ Star (Cls is_space) ⋅
   Lit "<end>" ⋅ Group 3 time_pattern ⋅ Lit "</end>" ⋅ Star (Cls is_space) ⋅
   Lit "</event>")%re.

(** ** Events *)

(** A scheduled or reference event: (name, start, end), times as text. *)
Definition event : Type := text * text * text.

(** An event with its times in minutes. *)
Definition event_minutes : Type := text * Z * Z.

Definition get_events (content : text) : list event :=
  (λ m, (group m 1, group m 2, group m 3)) <$> finditer capture_regex content.

(** ** time_to_minutes *)

(** [str.split(sep)] for a separator of one character. *)
Fixpoint split (sep : ascii) (s : text) : list text :=
  match s with
  | [] => [[]]
  | c :: s' =>
      if Ascii.eqb c sep then [] :: split sep s'
      else
        match split sep s' with
        | p :: ps => (c :: p) :: ps
        | [] => [[c]]
        end
  end.

(** The white space that [int] drops around a number.  In a text of ASCII
    characters these are the tab, the line feed, the vertical tab, the form
    feed, the carriage return and the space; the separators 0x1c-0x1f, which
    [\s] matches, are not among them. *)
Definition int_space (c : ascii) : bool := in_range 9 13 c || in_range 32 32 c.

Fixpoint lstrip (s : text) : text :=
  match s with
  | c :: s' => if int_space c then lstrip s' else s
  | [] => []
  end.

Definition strip (s : text) : text := reverse (lstrip (reverse (lstrip s))).

Definition digit_value (c : ascii) : Z := Z.of_N (N_of_ascii c) - 48.

(** The digits of an integer literal; single underscores may separate
    digits. *)
Fixpoint int_digits (acc : Z) (after_digit : bool) (s : text) : option Z :=
  match s with
  | [] => if after_digit then Some acc else None
  | c :: s' =>
      if is_digit c then int_digits (10 * acc + digit_value c) true s'
      else if Ascii.eqb c "_"%char && after_digit then int_digits acc false s'
      else None
  end.

(** [sys.get_int_max_str_digits()]: the Python of the notebook (3.10.8)
    converts between [int] and [str] in base 10 up to 4300 digits and raises
    ValueError beyond. *)
Definition int_max_str_digits : Z := 4300.

(** [int(s)] in base 10: surrounding white space is dropped, one sign is
    allowed, and the digits, leading zeros included, are at most 4300. *)
Definition py_int (s : text) : result Z :=
  let s := strip s in
  let '(negative, body) :=
    match s with
    | c :: b =>
        if Ascii.eqb c "-"%char then (true, b)
        else if Ascii.eqb c "+"%char then (false, b)
        else (false, s)
    | [] => (false, s)
    end in
  match int_digits 0 false body with
  | Some n =>
      if int_max_str_digits <? Z.of_nat (length (filter (λ c, is_digit c = true) body))
      then Err ValueError
      else Ok (if negative then - n else n)
  | None => Err ValueError
  end.

(** [hours, mins = map(int, time_str.split(":"))]: anything but two integer
    fields is a ValueError. *)
Definition time_to_minutes (time_str : text) : result Z :=
  match split ":"%char time_str with
  | [h; m] =>
      hours ←' py_int h;
      mins ←' py_int m;
      Ok (hours * 60 + mins)
  | _ => Err ValueError
  end.

(** ** minutes_to_time *)

Definition digit_char (d : Z) : ascii := ascii_of_N (Z.to_N (48 + d)).

(** The decimal digits of a number that is not negative; [fuel] bounds the
    number of digits. *)
Fixpoint decimal_fuel (fuel : nat) (n : Z) : text :=
  match fuel with
  | O => []
  | S fuel' =>
      if n <? 10 then [digit_char n]
      else decimal_fuel fuel' (n / 10) ++ [digit_char (n mod 10)]
  end.

(** [str(n)] for [0 <= n]: a number has no more decimal digits than bits. *)
Definition decimal (n : Z) : text := decimal_fuel (S (Z.to_nat (Z.log2 n))) n.

(** The text of [f"{n:02d}"]: the sign counts in the width of 2, and only
    a number from 0 to 9 is padded with a zero. *)
Definition zero_padded (n : Z) : text :=
  if n <? 0 then "-"%char :: decimal (- n)
  else if n <? 10 then "0"%char :: decimal n
  else decimal n.

(** [f"{n:02d}"]: a number of more than 4300 digits is not printed. *)
Definition format_02d (n : Z) : result text :=
  if int_max_str_digits <? Z.of_nat (length (decimal (Z.abs n))) then Err ValueError
  else Ok (zero_padded n).

(** [f"{minutes // 60:02d}:{minutes % 60:02d}"]; [//] and [%] round to the
    floor, as [Z.div] and [Z.modulo] do; the two fields are printed from left
    to right. *)
Definition minutes_to_time (minutes : Z) : result text :=
  hours ←' format_02d (minutes / 60);
  mins ←' format_02d (minutes mod 60);
  Ok (hours ++ ":"%char :: mins).

(** ** format_reward *)

Definition format_valid (response : text) : bool :=
  bool_decide (is_Some (re_match overall_regex response)).

Definition format_reward_one (response : text) : Qc :=
  if format_valid response then Qc_of_Z 10 else 0%Qc.

Definition format_reward (responses : list text) : list Qc :=
  format_reward_one <$> responses.

(** ** score_reward *)

Definition ev_name (ev : event_minutes) : text := ev.1.1.
Definition ev_start (ev : event_minutes) : Z := ev.1.2.
Definition ev_end (ev : event_minutes) : Z := ev.2.

(** [(ev[0], time_to_minutes(ev[1]), time_to_minutes(ev[2]))] *)
Definition to_minutes (ev : event) : result event_minutes :=
  start ←' time_to_minutes ev.1.2;
  end_ ←' time_to_minutes ev.2;
  Ok (ev.1.1, start, end_).

(** The test of the elimination loop on the events at [j] and [k]. *)
Definition overlap_test (ej ek : event_minutes) : bool :=
  (ev_start ej <=? ev_end ek) && (ev_end ej >=? ev_start ek).

(** The body of the inner loop: both events of an overlapping pair are
    added to the set. *)
Definition mark_pair (l : list event_minutes) (j : nat)
    (acc : gset event_minutes) (k : nat) : gset event_minutes :=
  match l !! j, l !! k with
  | Some ej, Some ek =>
      if overlap_test ej ek then {[ek]} ∪ ({[ej]} ∪ acc) else acc
  | _, _ => acc
  end.

(** [for k in range(j + 1, len(l))] *)
Definition mark_row (l : list event_minutes) (acc : gset event_minutes) (j : nat) :
    gset event_minutes :=
  foldl (mark_pair l j) acc (seq (S j) (length l - S j)).

(** [for j in range(len(l))], from the empty set. *)
Definition overlapping_events (l : list event_minutes) : gset event_minutes :=
  foldl (mark_row l) ∅ (seq 0 (length l)).

(** [2 * (ev[2] - ev[1]) if ev[0] in priorities else ev[2] - ev[1]] *)
Definition weight (priorities : list text) (ev : event_minutes) : Z :=
  if decide (ev_name ev ∈ priorities) then 2 * (ev_end ev - ev_start ev)
  else ev_end ev - ev_start ev.

(** [sum(...)] *)
Definition sum (l : list Z) : Z := foldl Z.add 0 l.

(** [score / opt_score] on integers: true division. *)
Definition true_div (a b : Z) : result Qc :=
  if decide (b = 0) then Err ZeroDivisionError
  else Ok (Qc_of_Z a / Qc_of_Z b)%Qc.

(** The retained events of the elimination step and their score. *)
Definition surviving_events (existing_events_minutes : list event_minutes) : list event_minutes :=
  let overlapping := overlapping_events existing_events_minutes in
  filter (λ ev, ev ∉ overlapping) existing_events_minutes.

Definition weighted_score (priorities : list text) (l : list event_minutes) : Z :=
  sum (weight priorities <$> l).

(** [{ev for ev in scheduled_events if [ev[0], ev[1], ev[2]] in valid_events}] *)
Definition existing_events_of (scheduled_events valid_events : list event) : gset event :=
  list_to_set (filter (λ ev, ev ∈ valid_events) scheduled_events).

(** The body of the loop of score_reward: the score of one completion. *)
Definition score_reward_one (content : text) (valid_events : list event)
    (priorities : list text) (opt_score : Z) : result Qc :=
  let scheduled_events := get_events content in
  let existing_events := existing_events_of scheduled_events valid_events in
  if decide (size existing_events < length scheduled_events ∨ size existing_events < 2)%nat
  then Ok 0%Qc
  else
    existing_events_minutes ←' traverse to_minutes (elements existing_events);
    let existing_events_minutes := surviving_events existing_events_minutes in
    let score := weighted_score priorities existing_events_minutes in
    ratio ←' true_div score opt_score;
    Ok (ratio * Qc_of_Z 70)%Qc.

(** *** The sample log

    What score_reward takes from its environment when it logs: the value of
    [random.random()], the time of the clock as it is printed, and whether
    the directory can be made and the file opened; the writes to the open file
    are taken to succeed. *)
Record world : Type := World {
  random_random : Qc;
  clock : text;
  makedirs_ok : bool;
  open_ok : bool
}.

(** One [f.write], with the values that are formatted into it: the line of
    equal signs, the time, [prompts[0]], the scores, the completions. *)
Inductive written : Type :=
| Separator
| Clock (t : text)
| Prompt (p : text)
| Scores (scores : list Qc)
| Completions (responses : list text).

(** [x < y] on floats. *)
Definition Qc_ltb (x y : Qc) : bool :=
  match (x ?= y)%Qc with
  | Lt => true
  | _ => false
  end.

(** [0.10]: the float nearest to 1/10, which is 3602879701896397 / 2^55. *)
Definition log_rate : Qc := Q2Qc (3602879701896397 # 36028797018963968).

(** [any(score > 0 for score in scores) and random.random() < 0.10] *)
Definition wants_log (scores : list Qc) (w : world) : bool :=
  existsb (Qc_ltb 0) scores && Qc_ltb (random_random w) log_rate.

(** The body of the log branch: the outcome and what has been written to the
    file.  [prompts[0]] is evaluated for the third write, after the first
    two. *)
Definition log_samples (prompts responses : list text) (scores : list Qc) (w : world) :
    result () * list written :=
  if negb (makedirs_ok w) then (Err OSError, [])
  else if negb (open_ok w) then (Err OSError, [])
  else
    match prompts with
    | [] => (Err IndexError, [Separator; Clock (clock w)])
    | p :: _ =>
        (Ok (), [Separator; Clock (clock w); Prompt p; Scores scores; Completions responses])
    end.

(** [zip(responses, events, priority_events, optimal_score)] *)
Definition batch_items (responses : list text) (events : list (list event))
    (priority_events : list (list text)) (optimal_score : list Z) :
    list (text * list event * list text * Z) :=
  zip (zip (zip responses events) priority_events) optimal_score.

Definition item_score (item : text * list event * list text * Z) : result Qc :=
  let '(content, valid_events, priorities, opt_score) := item in
  score_reward_one content valid_events priorities opt_score.

(** score_reward over a batch: the scores of the loop, then the log branch;
    the result and what has been written to the log file. *)
Definition score_reward (prompts responses : list text) (events : list (list event))
    (priority_events : list (list text)) (optimal_score : list Z) (w : world) :
    result (list Qc) * list written :=
  match traverse item_score (batch_items responses events priority_events optimal_score) with
  | Err e => (Err e, [])
  | Ok scores =>
      if wants_log scores w then
        let '(outcome, out) := log_samples prompts responses scores w in
        (_ ←' outcome; Ok scores, out)
      else (Ok scores, [])
  end.

(** ** sorted_events_reward *)

Definition sorted_events_reward_one (response : text) : result Qc :=
  let scheduled_events := get_events response in
  if decide (length scheduled_events < 2)%nat then Ok 0%Qc
  else
    scheduled_events_minutes ←' traverse to_minutes scheduled_events;
    if forallb (λ i,
           match scheduled_events_minutes !! i, scheduled_events_minutes !! S i with
           | Some a, Some b => ev_start a <? ev_start b
           | _, _ => true
           end)
         (seq 0 (length scheduled_events_minutes - 1))
    then Ok (Qc_of_Z 20)
    else Ok 0%Qc.

Definition sorted_events_reward (responses : list text) : result (list Qc) :=
  traverse sorted_events_reward_one responses.

(** ** The documented fixture (ds[0]) *)

Definition fixture_events : list event :=
  [ ("Backstage tour VIP pass" : text, "01:06" : text, "01:21" : text);
    ("Sum 41 concert" : text, "14:57" : text, "15:27" : text);
    ("Korean BBQ food trucks" : text, "16:21" : text, "17:51" : text);
    ("Fireworks" : text, "08:48" : text, "10:48" : text);
    ("Jam session" : text, "14:31" : text, "15:31" : text) ].

Definition fixture_priorities : list text := [ "Sum 41 concert" : text ].

Definition fixture_optimal_score : Z := 285.

Definition event_B : event :=
  ("Sum 41 concert" : text, "14:57" : text, "15:27" : text).

Definition event_C : event :=
  ("Korean BBQ food trucks" : text, "16:21" : text, "17:51" : text).

(** A completion that schedules B and C, in this order. *)
Definition completion_B_C : text :=
  "<think>B beats the jam session, C is free</think>
<schedule>
<event>
<name>Sum 41 concert</name>
<start>14:57</start>
<end>15:27</end>
</event>
<event>
<name>Korean BBQ food trucks</name>
<start>16:21</start>
<end>17:51</end>
</event>
</schedule>".

(** The same completion without its closing schedule tag. *)
Definition completion_unclosed : text :=
  "<think>B beats the jam session, C is free</think>
<schedule>
<event>
<name>Sum 41 concert</name>
<start>14:57</start>
<end>15:27</end>
</event>
<event>
<name>Korean BBQ food trucks</name>
<start>16:21</start>
<end>17:51</end>
</event>
".

(** B and C, and an event that is not among the reference events. *)
Definition completion_invented : text :=
  "<think>one more</think>
<schedule>
<event><name>Sum 41 concert</name><start>14:57</start><end>15:27</end></event>
<event><name>Korean BBQ food trucks</name><start>16:21</start><end>17:51</end></event>
<event><name>Afterparty</name><start>18:00</start><end>19:00</end></event>
</schedule>".

(** B, C, and B once more. *)
Definition completion_repeated : text :=
  "<think>twice</think>
<schedule>
<event><name>Sum 41 concert</name><start>14:57</start><end>15:27</end></event>
<event><name>Korean BBQ food trucks</name><start>16:21</start><end>17:51</end></event>
<event><name>Sum 41 concert</name><start>14:57</start><end>15:27</end></event>
</schedule>".

(** Reference events of which two meet at 11:00. *)
Definition touching_events : list event :=
  [ ("X" : text, "08:00" : text, "09:00" : text);
    ("A" : text, "10:00" : text, "11:00" : text);
    ("B" : text, "11:00" : text, "12:00" : text) ].

Definition completion_A_B : text :=
  "<think>back to back</think>
<schedule>
<event><name>A</name><start>10:00</start><end>11:00</end></event>
<event><name>B</name><start>11:00</start><end>12:00</end></event>
</schedule>".

Definition completion_X_A : text :=
  "<think>two</think>
<schedule>
<event><name>X</name><start>08:00</start><end>09:00</end></event>
<event><name>A</name><start>10:00</start><end>11:00</end></event>
</schedule>".

Definition completion_X_A_B : text :=
  "<think>three</think>
<schedule>
<event><name>X</name><start>08:00</start><end>09:00</end></event>
<event><name>A</name><start>10:00</start><end>11:00</end></event>
<event><name>B</name><start>11:00</start><end>12:00</end></event>
</schedule>".

(** A block with a one-digit hour, a block without a name, then B. *)
Definition completion_malformed : text :=
  "<schedule>
<event><name>Fireworks</name><start>8:48</start><end>10:48</end></event>
<event><start>01:06</start><end>01:21</end></event>
<event>
  <name>Sum 41 concert</name>
  <start>14:57</start>
  <end>15:27</end>
</event>".


(** * Session identifiers of the frontend

    [frontend/src/utils/sessionUtils.ts].  A JavaScript string is modelled by
    [text], which covers the strings of 8-bit characters; the clock
    [Date.now()] and the text of [Math.random().toString(36)] are arguments of
    generateSessionId. *)

(** [`${n}`] for an integer [n] of fewer than 22 digits, as every value of
    the clock is: its decimal digits, after a sign when it is negative. *)
Definition js_integer (n : Z) : text :=
  if n <? 0 then "-"%char :: decimal (- n) else decimal n.

(** [s.substr(start, length)] *)
Definition substr (start length : nat) (s : text) : text :=
  take length (drop start s).

(** [s.substring(start, end)]: the two indices are swapped when [start] is
    the larger one. *)
Definition substring (start end_ : nat) (s : text) : text :=
  take (Nat.max start end_ - Nat.min start end_) (drop (Nat.min start end_) s).

(** [[a-z0-9]] *)
Definition lower_alnum (c : ascii) : bool := in_range 97 122 c || in_range 48 57 c.

(** [/^session_\d+_[a-z0-9]+$/] *)
Definition session_id_pattern : regex :=
  (Lit "session_" ⋅ Plus (Cls is_digit) ⋅ Lit "_" ⋅ Plus (Cls lower_alnum))%re.

Definition generateSessionId (now : Z) (random36 : text) : text :=
  "session_" ++ js_integer now ++ "_" ++ substr 2 9 random36.

Definition formatSessionId (sessionId : text) : text :=
  substring 0 8 sessionId ++ "...".

(** [pattern.test(sessionId)]: the pattern is anchored at both ends. *)
Definition isValidSessionId (sessionId : text) : bool :=
  bool_decide (is_Some (re_fullmatch session_id_pattern sessionId)).

(** * Vocabulary of the statements *)

(** The language of a pattern; groups do not change it. *)
Fixpoint lang (r : regex) (s : text) : Prop :=
  match r with
  | Eps => s = []
  | Lit l => s = l
  | Cls p => ∃ c, s = [c] ∧ p c = true
  | Seq r1 r2 => ∃ s1 s2, s = s1 ++ s2 ∧ lang r1 s1 ∧ lang r2 s2
  | Star r' => ∃ ss, s = concat ss ∧ Forall (lang r') ss
  | Group _ r' => lang r' s
  end.

(** Two digits, a colon, two digits. *)
Definition time_shaped (s : text) : Prop :=
  ∃ a b c d, s = [a; b; ":"%char; c; d] ∧
    is_digit a = true ∧ is_digit b = true ∧ is_digit c = true ∧ is_digit d = true.

(** [pat in s] *)
Fixpoint contains (pat s : text) : bool :=
  match strip_prefix pat s with
  | Some _ => true
  | None =>
      match s with
      | [] => false
      | _ :: s' => contains pat s'
      end
  end.

(** [pat] is a piece of [s]. *)
Definition occurs (pat s : text) : Prop := ∃ a b, s = a ++ pat ++ b.

(** An event block as the validator reads it: the three fields in order,
    anything between them. *)
Definition event_block (blk : text) : Prop :=
  ∃ x name y st z en w,
    blk = "<event>" ++ x ++ "<name>" ++ name ++ "</name>" ++ y ++
          "<start>" ++ st ++ "</start>" ++ z ++
          "<end>" ++ en ++ "</end>" ++ w ++ "</event>" ∧
    name ≠ [] ∧ time_shaped st ∧ time_shaped en.

(** A think block that is not empty, then a schedule block with one or more
    event blocks. *)
Definition well_formed (response : text) : Prop :=
  ∃ think a b blocks c rest,
    response = "<think>" ++ think ++ "</think>" ++ a ++
               "<schedule>" ++ b ++ concat blocks ++ c ++ "</schedule>" ++ rest ∧
    think ≠ [] ∧ blocks ≠ [] ∧ Forall event_block blocks.

(** Patterns without a group. *)
Fixpoint group_free (r : regex) : bool :=
  match r with
  | Eps | Lit _ | Cls _ => true
  | Seq r1 r2 => group_free r1 && group_free r2
  | Star r' => group_free r'
  | Group _ _ => false
  end.

(** [stops p s]: [s] does not start with a character of class [p]. *)
Definition stops (p : ascii → bool) (s : text) : Prop :=
  match s with
  | [] => True
  | c :: _ => p c = false
  end.

(** White space only. *)
Definition spaces (s : text) : Prop := Forall (λ c, is_space c = true) s.

(** The text of a name field: not empty, no [<]. *)
Definition name_shaped (s : text) : Prop := s ≠ [] ∧ Forall (λ c, not_lt c = true) s.

(** What get_events hands out: a name that is not empty and has no [<], and
    two times of the shape of [time_pattern]. *)
Definition well_formed_event (ev : event) : Prop :=
  name_shaped ev.1.1 ∧ time_shaped ev.1.2 ∧ time_shaped ev.2.

(** [capture_block ev blk]: [blk] is an event block as capture_pattern reads
    it, with the fields of [ev] and only white space between the tags. *)
Definition capture_block (ev : event) (blk : text) : Prop :=
  ∃ ws1 ws2 ws3 ws4,
    blk = "<event>" ++ ws1 ++ "<name>" ++ ev.1.1 ++ "</name>" ++ ws2 ++
          "<start>" ++ ev.1.2 ++ "</start>" ++ ws3 ++
          "<end>" ++ ev.2 ++ "</end>" ++ ws4 ++ "</event>" ∧
    spaces ws1 ∧ spaces ws2 ∧ spaces ws3 ∧ spaces ws4 ∧ well_formed_event ev.

(** The groups of a match of capture_pattern on a block of [ev]. *)
Definition captured (ev : event) : groups :=
  <[3%nat:=ev.2]> (<[2%nat:=ev.1.2]> (<[1%nat:=ev.1.1]> ∅)).

(** [no_block_at s]: no event block starts at the first character of [s]. *)
Definition no_block_at (s : text) : Prop :=
  ∀ ev blk rest, capture_block ev blk → s ≠ blk ++ rest.

(** The declarative reading of get_events: scanning from the left, a
    character at which no event block starts is passed over, and an event
    block yields its triple and is passed over whole. *)
Inductive extracts : text → list event → Prop :=
| extracts_nil : extracts [] []
| extracts_skip c s evs :
    no_block_at (c :: s) → extracts s evs → extracts (c :: s) evs
| extracts_block ev blk rest evs :
    capture_block ev blk → extracts rest evs → extracts (blk ++ rest) (ev :: evs).

(** The characters of [\d]. *)
Definition digits : list ascii :=
  ["0"; "1"; "2"; "3"; "4"; "5"; "6"; "7"; "8"; "9"]%char.

(** The guard of score_reward: an event was filtered out or collapsed, or
    fewer than two are left. *)
Definition degenerate (scheduled_events valid_events : list event) : Prop :=
  (size (existing_events_of scheduled_events valid_events) < length scheduled_events ∨
   size (existing_events_of scheduled_events valid_events) < 2)%nat.

Global Instance degenerate_dec scheduled_events valid_events :
  Decision (degenerate scheduled_events valid_events).
Proof. unfold degenerate. apply _. Defined.

(** The test of sorted_events_reward: each start time is below the next. *)
Definition adjacent_increasing (l : list event_minutes) : bool :=
  forallb (λ i,
      match l !! i, l !! S i with
      | Some a, Some b => ev_start a <? ev_start b
      | _, _ => true
      end)
    (seq 0 (length l - 1)).

(** [overlapping_pair l ev]: [ev] is one of two events at positions [j < k]
    of [l] on which the test of the loop holds. *)
Definition overlapping_pair (l : list event_minutes) (P : nat → Prop) (ev : event_minutes) : Prop :=
  ∃ j k ej ek, P j ∧ (j < k)%nat ∧ l !! j = Some ej ∧ l !! k = Some ek ∧
    overlap_test ej ek = true ∧ (ev = ej ∨ ev = ek).

(** Two events conflict when their intervals share more than an endpoint. *)
Definition conflict (a b : event_minutes) : Prop :=
  ev_start a < ev_end b ∧ ev_start b < ev_end a.

(** No two events of [l] conflict. *)
Fixpoint conflict_free (l : list event_minutes) : Prop :=
  match l with
  | [] => True
  | a :: l' => Forall (λ b, ¬ conflict a b) l' ∧ conflict_free l'
  end.

(** [opt] is the largest total weight of a conflict-free selection of the
    reference events [ref]: some selection has it, none has more. *)
Definition is_optimal_score (ref : list event_minutes) (priorities : list text) (opt : Z) : Prop :=
  (∃ sel, sel ⊆+ ref ∧ conflict_free sel ∧ weighted_score priorities sel = opt) ∧
  (∀ sel, sel ⊆+ ref → conflict_free sel → weighted_score priorities sel ≤ opt).

Global Instance conflict_dec a b : Decision (conflict a b).
Proof. unfold conflict. apply _. Defined.

Global Instance conflict_free_dec l : Decision (conflict_free l).
Proof. induction l as [|a l IH]; simpl; apply _. Defined.

(** All selections of [l] that keep its order. *)
Fixpoint sublists {A : Type} (l : list A) : list (list A) :=
  match l with
  | [] => [[]]
  | x :: l' => ((x ::.) <$> sublists l') ++ sublists l'
  end.

(** The optimum by exhaustive search. *)
Definition best_score (ref : list event_minutes) (priorities : list text) : Z :=
  foldr Z.max 0 (weighted_score priorities <$> filter conflict_free (sublists ref)).

(** The event in minutes when its times convert. *)
Definition minutes_of (ev : event) : event_minutes :=
  match to_minutes ev with
  | Ok m => m
  | Err _ => (ev.1.1, 0, 0)
  end.

(** [separated a b]: the intervals of [a] and [b] neither share a stretch nor
    meet at an endpoint. *)
Definition separated (a b : event_minutes) : Prop :=
  ev_end a < ev_start b ∨ ev_end b < ev_start a.




(** The text that minutes_to_time prints, when it prints. *)
Definition printed_time (minutes : Z) : text :=
  zero_padded (minutes / 60) ++ ":"%char :: zero_padded (minutes mod 60).

(** An accepted time whose last two digits are below 60. *)
Definition normal_time (t : text) : Prop :=
  ∃ a b c d, t = [a; b; ":"%char; c; d] ∧
    is_digit a = true ∧ is_digit b = true ∧ is_digit c = true ∧ is_digit d = true ∧
    10 * digit_value c + digit_value d ≤ 59.

(** A text without [<]. *)
Definition lt_free (x : text) : Prop := Forall (λ c, c ≠ "<"%char) x.

(** A text that starts with [<] and has no other. *)
Definition tag (x : text) : Prop := ∃ t, x = "<"%char :: t ∧ lt_free t.

(** The tags of an event block after its opening tag. *)
Definition inner_tags : list text :=
  [ "<name>" : text; "</name>" : text; "<start>" : text; "</start>" : text;
    "<end>" : text; "</end>" : text; "</event>" : text ].

(** * The matcher against the language of a pattern *)

Lemma strip_prefix_Some l s s' : strip_prefix l s = Some s' ↔ s = l ++ s'.
Proof.
  revert s. induction l as [|a l IH]; intros s; simpl.
  - split; [intros [= ->]|intros ->]; done.
  - destruct s as [|c s]; [split; [done|intros [=]]|].
    destruct (Ascii.eqb_spec a c) as [->|Hne].
    + rewrite IH. split; [intros ->|intros [= ->]]; done.
    + split; [done|intros [= ? ?]; done].
Qed.

Lemma strip_prefix_app l s : strip_prefix l (l ++ s) = Some s.
Proof. by apply strip_prefix_Some. Qed.

Section MatcherCorrect.
Context {A : Type}.
Implicit Types (k : @cont A) (m : text → groups → @cont A → option A).

Lemma iterate_sound m (P : text → Prop) :
  (∀ s g k a, m s g k = Some a →
     ∃ s1 s2 g', s = s1 ++ s2 ∧ P s1 ∧ k s2 g' = Some a) →
  ∀ fuel s g k a, iterate m fuel s g k = Some a →
     ∃ ss s2 g', s = concat ss ++ s2 ∧ Forall P ss ∧ k s2 g' = Some a.
Proof.
  intros Hm fuel. induction fuel as [|fuel IH]; intros s g k a; simpl.
  - intros Hk. exists [], s, g. by split_and!.
  - destruct (m s g _) as [a'|] eqn:E.
    + intros [= ->]. apply Hm in E as (s1 & s2 & g' & -> & HP & Hk).
      case_decide; [|done].
      apply IH in Hk as (ss & s3 & g'' & -> & Hss & Hk).
      exists (s1 :: ss), s3, g''. simpl. rewrite <-(assoc_L (++)).
      split_and!; [done|by constructor|done].
    + intros Hk. exists [], s, g. by split_and!.
Qed.

Lemma iterate_complete m (P : text → Prop) :
  (∀ s1 s2 g k, P s1 → (∀ g', is_Some (k s2 g')) → is_Some (m (s1 ++ s2) g k)) →
  ∀ ss, Forall P ss → Forall (λ s, s ≠ []) ss →
  ∀ fuel s2 g k, (length (concat ss) ≤ fuel)%nat → (∀ g', is_Some (k s2 g')) →
     is_Some (iterate m fuel (concat ss ++ s2) g k).
Proof.
  intros Hm ss HP Hne. induction HP as [|s1 ss Hs1 HP IH]; intros fuel s2 g k Hfuel Hk.
  - simpl. destruct fuel as [|fuel]; simpl; [done|].
    destruct (m s2 g _); [by eexists|done].
  - inversion_clear Hne as [|?? Hs1ne Hne']. simpl in *.
    rewrite length_app in Hfuel.
    destruct fuel as [|fuel]; [destruct s1; simpl in *; [done|lia]|].
    simpl. rewrite <-(assoc_L (++)).
    match goal with
    | |- is_Some (match m _ _ ?k' with _ => _ end) =>
        destruct (Hm s1 (concat ss ++ s2) g k' Hs1) as [a ->]; [|by eexists]
    end.
    intros g'. rewrite decide_True.
    + apply IH; [done| |done]. destruct s1; simpl in *; [done|lia].
    + rewrite !length_app. destruct s1; simpl in *; [done|lia].
Qed.

Lemma rmatch_sound r s g k a :
  rmatch r s g k = Some a →
  ∃ s1 s2 g', s = s1 ++ s2 ∧ lang r s1 ∧ k s2 g' = Some a.
Proof.
  revert s g k a. induction r as [|l|p|r1 IH1 r2 IH2|r IH|i r IH]; intros s g k a; simpl.
  - intros Hk. by exists [], s, g.
  - destruct (strip_prefix l s) as [s'|] eqn:E; [|done].
    apply strip_prefix_Some in E as ->. intros Hk. by exists l, s', g.
  - destruct s as [|c s]; [done|]. destruct (p c) eqn:E; [|done].
    intros Hk. exists [c], s, g. split_and!; [done|by exists c|done].
  - intros H. apply IH1 in H as (s1 & s' & g' & -> & H1 & H).
    apply IH2 in H as (s2 & s3 & g'' & -> & H2 & H).
    exists (s1 ++ s2), s3, g''. rewrite <-(assoc_L (++)).
    split_and!; [done|by exists s1, s2|done].
  - intros H. apply (iterate_sound _ (lang r)) in H as (ss & s2 & g' & -> & Hss & Hk).
    + exists (concat ss), s2, g'. split_and!; [done|by exists ss|done].
    + intros ????. apply IH.
  - intros H. apply IH in H as (s1 & s2 & g' & -> & H1 & H). by eexists s1, s2, _.
Qed.

Lemma rmatch_complete r s1 s2 g k :
  lang r s1 → (∀ g', is_Some (k s2 g')) → is_Some (rmatch r (s1 ++ s2) g k).
Proof.
  revert s1 s2 g k. induction r as [|l|p|r1 IH1 r2 IH2|r IH|i r IH]; intros s1 s2 g k; simpl.
  - intros -> Hk. apply Hk.
  - intros -> Hk. rewrite strip_prefix_app. apply Hk.
  - intros (c & -> & Hc) Hk. simpl. rewrite Hc. apply Hk.
  - intros (s1a & s1b & -> & H1 & H2) Hk. rewrite <-(assoc_L (++)).
    apply IH1; [done|]. intros g'. by apply IH2.
  - intros (ss & -> & Hss) Hk.
    assert (∃ ss', concat ss' = concat ss ∧ Forall (lang r) ss' ∧ Forall (λ s, s ≠ []) ss')
      as (ss' & <- & Hss' & Hne).
    { clear Hk. induction Hss as [|s ss Hs Hss (ss' & E & ? & ?)].
      - by exists [].
      - destruct s as [|c s].
        + exists ss'. by split_and!.
        + exists ((c :: s) :: ss'). simpl. rewrite E.
          split_and!; [done|by constructor|by constructor]. }
    apply (iterate_complete _ (lang r)); [|done|done| |done].
    + intros ?????. by apply IH.
    + rewrite length_app. lia.
  - intros H Hk. apply IH; [done|]. intros g'. apply Hk.
Qed.
End MatcherCorrect.

(** [pattern.match(s)] succeeds exactly when a prefix of [s] is in the
    language of the pattern. *)
Lemma re_match_lang r s :
  is_Some (re_match r s) ↔ ∃ s1 s2, s = s1 ++ s2 ∧ lang r s1.
Proof.
  unfold re_match. split.
  - intros [a H]. apply rmatch_sound in H as (s1 & s2 & _ & -> & H & _). by exists s1, s2.
  - intros (s1 & s2 & -> & H). apply rmatch_complete; [done|]. by eexists.
Qed.

(** ** The shape of the texts the patterns accept *)

Lemma contains_spec pat s : contains pat s = true ↔ occurs pat s.
Proof.
  induction s as [|c s IH]; simpl.
  - destruct (strip_prefix pat []) as [s'|] eqn:E.
    + apply strip_prefix_Some in E. split; [|done]. intros _. by exists [], s'.
    + split; [done|]. intros (a & b & E'). destruct a; [|done]. simpl in *.
      assert (strip_prefix pat [] = Some b) as E2 by by apply strip_prefix_Some.
      congruence.
  - destruct (strip_prefix pat (c :: s)) as [s'|] eqn:E.
    + apply strip_prefix_Some in E. split; [|done]. intros _. by exists [], s'.
    + rewrite IH. split.
      * intros (a & b & ->). by exists (c :: a), b.
      * intros (a & b & E'). destruct a as [|c' a]; simpl in *.
        -- assert (strip_prefix pat (c :: s) = Some b) as E2 by by apply strip_prefix_Some.
           congruence.
        -- injection E' as -> ->. by exists a, b.
Qed.

Lemma lang_star_cls p s : lang (Star (Cls p)) s ↔ Forall (λ c, p c = true) s.
Proof.
  simpl. split.
  - intros (ss & -> & Hss). induction Hss as [|s ss Hs _ IH]; simpl; [constructor|].
    destruct Hs as (c & -> & Hc). by constructor.
  - intros Hs. exists ((λ c, [c]) <$> s). split.
    + induction s as [|c s IH]; simpl; [done|]. inversion_clear Hs. f_equal. by apply IH.
    + induction Hs; simpl; constructor; [by eexists|done].
Qed.

Lemma lang_plus_cls p s : lang (Plus (Cls p)) s ↔ s ≠ [] ∧ Forall (λ c, p c = true) s.
Proof.
  unfold Plus. change (lang (Seq ?r1 ?r2) s) with (∃ s1 s2, s = s1 ++ s2 ∧ lang r1 s1 ∧ lang r2 s2).
  split.
  - intros (s1 & s2 & -> & (c & -> & Hc) & H2%lang_star_cls). split; [done|by constructor].
  - intros [Hne Hs]. destruct s as [|c s]; [done|]. inversion_clear Hs.
    exists [c], s. split_and!; [done|by exists c|by apply lang_star_cls].
Qed.

Lemma Forall_any_char s : Forall (λ c, any_char c = true) s.
Proof. by apply Forall_forall. Qed.

Lemma lang_time_pattern s : lang time_pattern s ↔ time_shaped s.
Proof.
  unfold time_pattern, time_shaped. simpl. split.
  - intros (? & ? & -> & (? & ? & -> & (a & -> & Ha) & (? & ? & -> & (b & -> & Hb) & ->)) &
            (? & ? & -> & -> & (? & ? & -> & (c & -> & Hc) & (? & ? & -> & (d & -> & Hd) & ->)))).
    by exists a, b, c, d.
  - intros (a & b & c & d & -> & Ha & Hb & Hc & Hd).
    exists [a; b], [":"%char; c; d]. split_and!; [done| |].
    + exists [a], [b]. split_and!; [done|by exists a|].
      exists [b], []. split_and!; [done|by exists b|done].
    + exists [":"%char], [c; d]. split_and!; [done|done|].
      exists [c], [d]. split_and!; [done|by exists c|].
      exists [d], []. split_and!; [done|by exists d|done].
Qed.

Lemma lang_lit_seq l r s : lang (Lit l ⋅ r) s ↔ ∃ s', s = l ++ s' ∧ lang r s'.
Proof.
  simpl. split.
  - intros (? & s' & -> & -> & H). by exists s'.
  - intros (s' & -> & H). by exists l, s'.
Qed.

Lemma lang_any_star_seq r s :
  lang (Star (Cls any_char) ⋅ r) s ↔ ∃ x s', s = x ++ s' ∧ lang r s'.
Proof.
  split.
  - intros (x & s' & -> & _ & H). by exists x, s'.
  - intros (x & s' & -> & H). exists x, s'.
    split_and!; [done|apply lang_star_cls, Forall_any_char|done].
Qed.

Lemma lang_any_plus_seq r s :
  lang (Plus (Cls any_char) ⋅ r) s ↔ ∃ x s', s = x ++ s' ∧ x ≠ [] ∧ lang r s'.
Proof.
  split.
  - intros (x & s' & -> & [Hne _]%lang_plus_cls & H). by exists x, s'.
  - intros (x & s' & -> & Hne & H). exists x, s'.
    split_and!; [done|apply lang_plus_cls; split; [done|apply Forall_any_char]|done].
Qed.

Lemma lang_time_seq r s :
  lang (time_pattern ⋅ r) s ↔ ∃ t s', s = t ++ s' ∧ time_shaped t ∧ lang r s'.
Proof.
  split.
  - intros (t & s' & -> & Ht%lang_time_pattern & H). by exists t, s'.
  - intros (t & s' & -> & Ht & H). exists t, s'. by rewrite lang_time_pattern.
Qed.

Lemma lang_plus_group i r s :
  lang (Plus (Group i r)) s ↔ ∃ blocks, s = concat blocks ∧ blocks ≠ [] ∧ Forall (lang r) blocks.
Proof.
  split.
  - intros (b & ? & -> & Hb & (bs & -> & Hbs)). exists (b :: bs).
    split_and!; [done|done|by constructor].
  - intros (blocks & -> & Hne & Hbs). destruct Hbs as [|b bs Hb Hbs]; [done|].
    exists b, (concat bs). split_and!; [done|done|by exists bs].
Qed.

Lemma lang_overall_event blk : lang overall_event blk ↔ event_block blk.
Proof.
  unfold overall_event, event_block. split.
  - intros H.
    apply lang_lit_seq in H as (? & -> & H). apply lang_any_star_seq in H as (g0 & ? & -> & H).
    apply lang_lit_seq in H as (? & -> & H). apply lang_any_plus_seq in H as (name & ? & -> & Hne & H).
    apply lang_lit_seq in H as (? & -> & H). apply lang_any_star_seq in H as (g1 & ? & -> & H).
    apply lang_lit_seq in H as (? & -> & H). apply lang_time_seq in H as (st & ? & -> & Hst & H).
    apply lang_lit_seq in H as (? & -> & H). apply lang_any_star_seq in H as (g2 & ? & -> & H).
    apply lang_lit_seq in H as (? & -> & H). apply lang_time_seq in H as (en & ? & -> & Hen & H).
    apply lang_lit_seq in H as (? & -> & H). apply lang_any_star_seq in H as (g3 & ? & -> & H).
    simpl in H. subst. by exists g0, name, g1, st, g2, en, g3.
  - intros (x & name & y & st & z & en & w & -> & Hne & Hst & Hen).
    apply lang_lit_seq; eexists; split; [done|]. apply lang_any_star_seq; eexists _, _; split; [done|].
    apply lang_lit_seq; eexists; split; [done|].
    apply lang_any_plus_seq; eexists _, _; split_and!; [done|done|].
    apply lang_lit_seq; eexists; split; [done|]. apply lang_any_star_seq; eexists _, _; split; [done|].
    apply lang_lit_seq; eexists; split; [done|].
    apply lang_time_seq; eexists _, _; split_and!; [done|done|].
    apply lang_lit_seq; eexists; split; [done|]. apply lang_any_star_seq; eexists _, _; split; [done|].
    apply lang_lit_seq; eexists; split; [done|].
    apply lang_time_seq; eexists _, _; split_and!; [done|done|].
    apply lang_lit_seq; eexists; split; [done|]. apply lang_any_star_seq; eexists _, _; split; [done|].
    done.
Qed.

Lemma lang_overall_regex s :
  lang overall_regex s ↔
  ∃ think a b blocks c,
    s = "<think>" ++ think ++ "</think>" ++ a ++
        "<schedule>" ++ b ++ concat blocks ++ c ++ "</schedule>" ∧
    think ≠ [] ∧ blocks ≠ [] ∧ Forall event_block blocks.
Proof.
  unfold overall_regex. split.
  - intros H.
    apply lang_lit_seq in H as (? & -> & H).
    apply lang_any_plus_seq in H as (think & ? & -> & Hne & H).
    apply lang_lit_seq in H as (? & -> & H). apply lang_any_star_seq in H as (a & ? & -> & H).
    apply lang_lit_seq in H as (? & -> & H). apply lang_any_star_seq in H as (b & ? & -> & H).
    destruct H as (? & ? & -> & (blocks & -> & Hblocks & Hall)%lang_plus_group & H).
    apply lang_any_star_seq in H as (c & ? & -> & H). simpl in H. subst.
    exists think, a, b, blocks, c. split_and!; [done..|].
    eapply Forall_impl; [done|]. intros blk. apply lang_overall_event.
  - intros (think & a & b & blocks & c & -> & Hne & Hblocks & Hall).
    apply lang_lit_seq; eexists; split; [done|].
    apply lang_any_plus_seq; eexists _, _; split_and!; [done|done|].
    apply lang_lit_seq; eexists; split; [done|]. apply lang_any_star_seq; eexists _, _; split; [done|].
    apply lang_lit_seq; eexists; split; [done|]. apply lang_any_star_seq; eexists _, _; split; [done|].
    exists (concat blocks), (c ++ "</schedule>"). split_and!; [done| |].
    + apply lang_plus_group. exists blocks. split_and!; [done..|].
      eapply Forall_impl; [done|]. intros blk. apply lang_overall_event.
    + apply lang_any_star_seq. by eexists _, _.
Qed.

(** format_reward is positive exactly on the well-formed responses. *)
Lemma format_valid_well_formed response :
  format_valid response = true ↔ well_formed response.
Proof.
  unfold format_valid. rewrite bool_decide_eq_true, re_match_lang. unfold well_formed. split.
  - intros (s1 & rest & -> & (think & a & b & blocks & c & -> & ?)%lang_overall_regex).
    exists think, a, b, blocks, c, rest. split; [|done].
    by rewrite <-!(assoc_L (++)).
  - intros (think & a & b & blocks & c & rest & -> & ?).
    eexists _, rest. split; [|apply lang_overall_regex; by exists think, a, b, blocks, c].
    by rewrite <-!(assoc_L (++)).
Qed.

(** ** Patterns without groups, and groups around them *)

Lemma take_matched (x s : text) : take (length (x ++ s) - length s) (x ++ s) = x.
Proof.
  rewrite length_app. replace (length x + length s - length s)%nat with (length x) by lia.
  by rewrite take_app_length.
Qed.

Section MatcherGroups.
Context {A : Type}.
Implicit Types (k : @cont A) (m : text → groups → @cont A → option A).

Lemma iterate_sound_same m (P : text → Prop) :
  (∀ s g k a, m s g k = Some a → ∃ s1 s2, s = s1 ++ s2 ∧ P s1 ∧ k s2 g = Some a) →
  ∀ fuel s g k a, iterate m fuel s g k = Some a →
     ∃ ss s2, s = concat ss ++ s2 ∧ Forall P ss ∧ k s2 g = Some a.
Proof.
  intros Hm fuel. induction fuel as [|fuel IH]; intros s g k a; simpl.
  - intros Hk. exists [], s. by split_and!.
  - destruct (m s g _) as [a'|] eqn:E.
    + intros [= ->]. apply Hm in E as (s1 & s2 & -> & HP & Hk).
      case_decide; [|done].
      apply IH in Hk as (ss & s3 & -> & Hss & Hk).
      exists (s1 :: ss), s3. simpl. rewrite <-(assoc_L (++)).
      split_and!; [done|by constructor|done].
    + intros Hk. exists [], s. by split_and!.
Qed.

(** A pattern without groups hands the groups on unchanged. *)
Lemma rmatch_sound_group_free r s g k a :
  group_free r = true → rmatch r s g k = Some a →
  ∃ s1 s2, s = s1 ++ s2 ∧ lang r s1 ∧ k s2 g = Some a.
Proof.
  revert s g k a. induction r as [|l|p|r1 IH1 r2 IH2|r IH|i r IH]; intros s g k a Hgf; simpl.
  - intros Hk. by exists [], s.
  - destruct (strip_prefix l s) as [s'|] eqn:E; [|done].
    apply strip_prefix_Some in E as ->. intros Hk. by exists l, s'.
  - destruct s as [|c s]; [done|]. destruct (p c) eqn:E; [|done].
    intros Hk. exists [c], s. split_and!; [done|by exists c|done].
  - simpl in Hgf. apply andb_prop in Hgf as [Hgf1 Hgf2].
    intros H. apply IH1 in H as (s1 & s' & -> & H1 & H); [|done].
    apply IH2 in H as (s2 & s3 & -> & H2 & H); [|done].
    exists (s1 ++ s2), s3. rewrite <-(assoc_L (++)).
    split_and!; [done|by exists s1, s2|done].
  - intros H. apply (iterate_sound_same _ (lang r)) in H as (ss & s2 & -> & Hss & Hk).
    + exists (concat ss), s2. split_and!; [done|by exists ss|done].
    + intros ????. by apply IH.
  - done.
Qed.

Lemma rmatch_seq_group_free r1 r2 s g k a :
  group_free r1 = true → rmatch (r1 ⋅ r2) s g k = Some a →
  ∃ s1 s2, s = s1 ++ s2 ∧ lang r1 s1 ∧ rmatch r2 s2 g k = Some a.
Proof. intros Hgf H. simpl in H. by apply (rmatch_sound_group_free r1) in H. Qed.

Lemma rmatch_seq_lit l r s g k a :
  rmatch (Lit l ⋅ r) s g k = Some a → ∃ s', s = l ++ s' ∧ rmatch r s' g k = Some a.
Proof.
  intros (? & s' & -> & Hl & H)%rmatch_seq_group_free; [|done].
  simpl in Hl. subst. by exists s'.
Qed.

(** A group around a pattern without groups records the text it matched. *)
Lemma rmatch_seq_group i r1 r2 s g k a :
  group_free r1 = true → rmatch (Group i r1 ⋅ r2) s g k = Some a →
  ∃ s1 s2, s = s1 ++ s2 ∧ lang r1 s1 ∧ rmatch r2 s2 (<[i:=s1]> g) k = Some a.
Proof.
  intros Hgf H. simpl in H.
  apply rmatch_sound_group_free in H as (s1 & s2 & -> & H1 & H); [|done].
  rewrite take_matched in H. by exists s1, s2.
Qed.

(** The other direction, for the constructs of capture_pattern: each of
    them has one way to match. *)

Lemma rmatch_lit_app l s g k : rmatch (Lit l) (l ++ s) g k = k s g.
Proof. simpl. by rewrite strip_prefix_app. Qed.

Lemma rmatch_seq_lit_app l r s g k :
  rmatch (Lit l ⋅ r) (l ++ s) g k = rmatch r s g k.
Proof. simpl. by rewrite strip_prefix_app. Qed.

Lemma iterate_cls_greedy p fuel x s g k a :
  Forall (λ c, p c = true) x → stops p s → (length x ≤ fuel)%nat →
  k s g = Some a →
  iterate (rmatch (Cls p)) fuel (x ++ s) g k = Some a.
Proof.
  intros Hx Hs. revert fuel. induction Hx as [|c x Hc Hx IH]; intros fuel Hfuel Hk; simpl in *.
  - destruct fuel as [|fuel]; simpl; [done|].
    destruct s as [|c s]; [done|]. simpl in Hs. by rewrite Hs.
  - destruct fuel as [|fuel]; [lia|]. simpl. rewrite Hc.
    rewrite decide_True by lia. rewrite IH; [done|lia|done].
Qed.

Lemma rmatch_seq_star_cls p r x s g k a :
  Forall (λ c, p c = true) x → stops p s →
  rmatch r s g k = Some a →
  rmatch (Star (Cls p) ⋅ r) (x ++ s) g k = Some a.
Proof.
  intros Hx Hs Hk. simpl. apply iterate_cls_greedy; [done|done| |done].
  rewrite length_app. lia.
Qed.

Lemma rmatch_seq_group_plus_cls i p r x s g k a :
  x ≠ [] → Forall (λ c, p c = true) x → stops p s →
  rmatch r s (<[i:=x]> g) k = Some a →
  rmatch (Group i (Plus (Cls p)) ⋅ r) (x ++ s) g k = Some a.
Proof.
  intros Hne Hx Hs Hk. destruct Hx as [|c x Hc Hx]; [done|].
  simpl. rewrite Hc.
  apply (iterate_cls_greedy p _ x s g
    (λ s' g', rmatch r s' (<[i:=take (S (length (x ++ s)) - length s') (c :: x ++ s)]> g') k));
    [done|done|rewrite length_app; lia|].
  change (S (length (x ++ s))) with (length ((c :: x) ++ s)).
  change (c :: x ++ s) with ((c :: x) ++ s). by rewrite take_matched.
Qed.

Lemma rmatch_seq_group_time i r t s g k :
  time_shaped t →
  rmatch (Group i time_pattern ⋅ r) (t ++ s) g k = rmatch r s (<[i:=t]> g) k.
Proof.
  intros (a & b & c & d & -> & Ha & Hb & Hc & Hd). simpl.
  rewrite Ha, Hb, Hc, Hd. simpl.
  replace (S (S (S (S (S (length s))))) - length s)%nat with 5%nat by lia. done.
Qed.
End MatcherGroups.

(** * The extractor *)

Lemma captured_event ev : (group (captured ev) 1, group (captured ev) 2, group (captured ev) 3) = ev.
Proof. by destruct ev as [[??]?]. Qed.

Lemma capture_match_inv s g rest :
  re_match capture_regex s = Some (g, rest) →
  ∃ ev blk, s = blk ++ rest ∧ capture_block ev blk ∧ g = captured ev.
Proof.
  unfold re_match, capture_regex. intros H.
  apply rmatch_seq_lit in H as (? & -> & H).
  apply rmatch_seq_group_free in H as (ws1 & ? & -> & H1%lang_star_cls & H); [|done].
  apply rmatch_seq_lit in H as (? & -> & H).
  apply rmatch_seq_group in H as (name & ? & -> & Hname%lang_plus_cls & H); [|done].
  apply rmatch_seq_lit in H as (? & -> & H).
  apply rmatch_seq_group_free in H as (ws2 & ? & -> & H2%lang_star_cls & H); [|done].
  apply rmatch_seq_lit in H as (? & -> & H).
  apply rmatch_seq_group in H as (st & ? & -> & Hst%lang_time_pattern & H); [|done].
  apply rmatch_seq_lit in H as (? & -> & H).
  apply rmatch_seq_group_free in H as (ws3 & ? & -> & H3%lang_star_cls & H); [|done].
  apply rmatch_seq_lit in H as (? & -> & H).
  apply rmatch_seq_group in H as (en & ? & -> & Hen%lang_time_pattern & H); [|done].
  apply rmatch_seq_lit in H as (? & -> & H).
  apply rmatch_seq_group_free in H as (ws4 & ? & -> & H4%lang_star_cls & H); [|done].
  apply rmatch_sound_group_free in H as (? & ? & -> & Hl & [= <- <-]); [|done].
  simpl in Hl. subst.
  exists (name, st, en). eexists. split; [|split; [by exists ws1, ws2, ws3, ws4|done]].
  cbn [fst snd]. by rewrite <-!(assoc_L (++)).
Qed.

Lemma stops_lt p (l s : text) : p "<"%char = false → stops p (("<"%char :: l) ++ s).
Proof. done. Qed.

Lemma capture_match_block ev blk rest :
  capture_block ev blk → re_match capture_regex (blk ++ rest) = Some (captured ev, rest).
Proof.
  intros (ws1 & ws2 & ws3 & ws4 & -> & H1 & H2 & H3 & H4 & [Hne Hname] & Hst & Hen).
  unfold re_match, capture_regex. rewrite <-!(assoc_L (++)).
  rewrite rmatch_seq_lit_app.
  apply rmatch_seq_star_cls; [done|by apply stops_lt|].
  rewrite rmatch_seq_lit_app.
  apply rmatch_seq_group_plus_cls; [done|done|by apply stops_lt|].
  rewrite rmatch_seq_lit_app.
  apply rmatch_seq_star_cls; [done|by apply stops_lt|].
  rewrite rmatch_seq_lit_app, rmatch_seq_group_time by done.
  rewrite rmatch_seq_lit_app.
  apply rmatch_seq_star_cls; [done|by apply stops_lt|].
  rewrite rmatch_seq_lit_app, rmatch_seq_group_time by done.
  rewrite rmatch_seq_lit_app.
  apply rmatch_seq_star_cls; [done|by apply stops_lt|].
  by rewrite rmatch_lit_app.
Qed.

Lemma capture_block_nonempty ev blk : capture_block ev blk → blk ≠ [].
Proof. by intros (? & ? & ? & ? & -> & _). Qed.

Lemma re_match_capture_None s : re_match capture_regex s = None ↔ no_block_at s.
Proof.
  split.
  - intros H ev blk rest Hblk ->. by rewrite (capture_match_block ev) in H.
  - intros H. destruct (re_match capture_regex s) as [[g rest]|] eqn:E; [|done].
    apply capture_match_inv in E as (ev & blk & -> & Hblk & _). by destruct (H ev blk rest).
Qed.

Lemma finditer_from_skip r n s : finditer_from r n s = finditer_from r 0 (drop n s).
Proof.
  revert n. induction s as [|c s IH]; intros [|n]; simpl; done.
Qed.

Lemma finditer_no_match r c s : re_match r (c :: s) = None → finditer r (c :: s) = finditer r s.
Proof. unfold finditer. simpl. by intros ->. Qed.

Lemma finditer_match r blk rest g :
  blk ≠ [] → re_match r (blk ++ rest) = Some (g, rest) →
  finditer r (blk ++ rest) = g :: finditer r rest.
Proof.
  intros Hne H. unfold finditer. destruct blk as [|c blk]; [done|].
  change ((c :: blk) ++ rest) with (c :: blk ++ rest) in *. cbn [finditer_from].
  rewrite H. f_equal. rewrite finditer_from_skip. f_equal.
  cbn [length]. rewrite length_app.
  replace (S (length blk + length rest) - length rest - 1)%nat with (length blk) by lia.
  by rewrite drop_app_length.
Qed.

Lemma get_events_nil : get_events [] = [].
Proof. done. Qed.

Lemma get_events_skip c s : no_block_at (c :: s) → get_events (c :: s) = get_events s.
Proof.
  intros H%re_match_capture_None. unfold get_events. by rewrite finditer_no_match.
Qed.

Lemma get_events_block ev blk rest :
  capture_block ev blk → get_events (blk ++ rest) = ev :: get_events rest.
Proof.
  intros H. unfold get_events.
  rewrite (finditer_match _ _ _ (captured ev)).
  - by rewrite fmap_cons, captured_event.
  - by eapply capture_block_nonempty.
  - by apply capture_match_block.
Qed.

Lemma extracts_get_events content evs : extracts content evs ↔ evs = get_events content.
Proof.
  split.
  - induction 1 as [|c s evs Hno _ ->|ev blk rest evs Hblk _ ->].
    + done.
    + by rewrite get_events_skip.
    + by rewrite (get_events_block ev).
  - intros ->. remember (length content) as n eqn:Hn.
    revert content Hn. induction n as [n IH] using lt_wf_ind. intros content ->.
    destruct content as [|c s]; [constructor|].
    destruct (re_match capture_regex (c :: s)) as [[g rest]|] eqn:E.
    + apply capture_match_inv in E as (ev & blk & E & Hblk & _). rewrite E.
      rewrite (get_events_block ev) by done. constructor; [done|].
      eapply IH; [|done]. rewrite E, length_app.
      apply capture_block_nonempty in Hblk. destruct blk; simpl; [done|lia].
    + apply re_match_capture_None in E. rewrite get_events_skip by done.
      constructor; [done|]. eapply IH; [|done]. simpl. lia.
Qed.

(** Every triple that get_events returns is well formed. *)
Lemma get_events_well_formed content : Forall well_formed_event (get_events content).
Proof.
  assert (extracts content (get_events content)) as H by by apply extracts_get_events.
  induction H as [| |ev blk rest evs Hblk _ IH]; [constructor|done|].
  constructor; [|done]. by destruct Hblk as (? & ? & ? & ? & _ & _ & _ & _ & _ & ?).
Qed.

(** * Times *)

Lemma re_fullmatch_lang r s : is_Some (re_fullmatch r s) ↔ lang r s.
Proof.
  unfold re_fullmatch. split.
  - intros [g H]. apply rmatch_sound in H as (s1 & s2 & g' & -> & H & Hk).
    destruct s2; [|done]. by rewrite (right_id_L [] (++)).
  - intros H. rewrite <-(right_id_L [] (++) s). apply rmatch_complete; [done|]. by eexists.
Qed.

Lemma accepts_time_shaped t : accepts_time t = true ↔ time_shaped t.
Proof.
  unfold accepts_time. by rewrite bool_decide_eq_true, re_fullmatch_lang, lang_time_pattern.
Qed.

Lemma is_digit_digits c : is_digit c = true → c ∈ digits.
Proof.
  unfold is_digit, in_range. intros [H1%N.leb_le H2%N.leb_le]%andb_prop.
  rewrite <-(ascii_N_embedding c).
  assert (N_of_ascii c ∈ [48; 49; 50; 51; 52; 53; 54; 55; 56; 57]%N) as H.
  { rewrite !elem_of_cons. lia. }
  revert H. generalize (N_of_ascii c). intros n Hn.
  rewrite !elem_of_cons, elem_of_nil in Hn.
  destruct_or!; subst; apply (bool_decide_unpack _); by vm_compute.
Qed.

Lemma digit_value_range c : c ∈ digits → 0 ≤ digit_value c ≤ 9.
Proof.
  revert c. apply Forall_forall. apply (bool_decide_unpack _). by vm_compute.
Qed.

Lemma digit_not_colon c : c ∈ digits → Ascii.eqb c ":"%char = false.
Proof.
  revert c. apply Forall_forall. apply (bool_decide_unpack _). by vm_compute.
Qed.

Lemma py_int_two_digits a b :
  a ∈ digits → b ∈ digits → py_int [a; b] = Ok (10 * digit_value a + digit_value b).
Proof.
  intros Ha Hb.
  assert (Forall (λ a, Forall (λ b, py_int [a; b] = Ok (10 * digit_value a + digit_value b)) digits) digits)
    as H by (apply (bool_decide_unpack _); by vm_compute).
  rewrite Forall_forall in H. specialize (H a Ha). rewrite Forall_forall in H. by apply H.
Qed.

(** A text of the shape of [time_pattern] converts to 60 times its first
    two digits plus its last two. *)
Lemma time_to_minutes_digits a b c d :
  is_digit a = true → is_digit b = true → is_digit c = true → is_digit d = true →
  time_to_minutes [a; b; ":"%char; c; d] =
    Ok ((10 * digit_value a + digit_value b) * 60 + (10 * digit_value c + digit_value d)).
Proof.
  intros Ha%is_digit_digits Hb%is_digit_digits Hc%is_digit_digits Hd%is_digit_digits.
  unfold time_to_minutes. simpl.
  rewrite !digit_not_colon by done. simpl.
  by rewrite !py_int_two_digits by done.
Qed.

Lemma time_to_minutes_shaped t :
  time_shaped t →
  ∃ h m, time_to_minutes t = Ok (h * 60 + m) ∧ 0 ≤ h ≤ 99 ∧ 0 ≤ m ≤ 99.
Proof.
  intros (a & b & c & d & -> & Ha & Hb & Hc & Hd).
  rewrite time_to_minutes_digits by done.
  pose proof (digit_value_range _ (is_digit_digits _ Ha)).
  pose proof (digit_value_range _ (is_digit_digits _ Hb)).
  pose proof (digit_value_range _ (is_digit_digits _ Hc)).
  pose proof (digit_value_range _ (is_digit_digits _ Hd)).
  eexists _, _. split; [done|]. lia.
Qed.

Lemma to_minutes_well_formed ev :
  well_formed_event ev →
  ∃ start end_, to_minutes ev = Ok (ev.1.1, start, end_) ∧
    time_to_minutes ev.1.2 = Ok start ∧ time_to_minutes ev.2 = Ok end_.
Proof.
  intros (_ & (h1 & m1 & E1 & _)%time_to_minutes_shaped & (h2 & m2 & E2 & _)%time_to_minutes_shaped).
  unfold to_minutes. rewrite E1, E2. simpl. by eexists _, _.
Qed.

(** ** traverse *)

Lemma traverse_Ok {A B} (f : A → result B) l :
  Forall (λ x, ∃ y, f x = Ok y) l → ∃ l', traverse f l = Ok l'.
Proof.
  induction 1 as [|x l [y Hy] _ [l' IH]]; simpl; [by eexists|].
  rewrite Hy, IH. simpl. by eexists.
Qed.

Lemma traverse_Ok_inv {A B} (f : A → result B) l l' :
  traverse f l = Ok l' → Forall2 (λ x y, f x = Ok y) l l'.
Proof.
  revert l'. induction l as [|x l IH]; intros l'; simpl.
  - intros [= <-]. constructor.
  - destruct (f x) as [y|] eqn:Hy; [|done]. simpl.
    destruct (traverse f l) as [ys|]; [|done]. simpl.
    intros [= <-]. constructor; [done|by apply IH].
Qed.

(** * The scorer *)

Section SetSize.
Context `{Countable A}.

Lemma length_remove_dups (l : list A) : (length (remove_dups l) ≤ length l)%nat.
Proof. induction l as [|x l IH]; simpl; [done|]. case_decide; simpl; lia. Qed.

Lemma length_remove_dups_lt (l : list A) :
  ¬ NoDup l → (length (remove_dups l) < length l)%nat.
Proof.
  induction l as [|x l IH]; simpl; intros Hdup.
  - destruct Hdup. constructor.
  - pose proof (length_remove_dups l). case_decide; simpl; [lia|].
    cut (length (remove_dups l) < length l)%nat; [lia|].
    apply IH. intros Hl. apply Hdup. by constructor.
Qed.

Lemma size_list_to_set_remove_dups (l : list A) :
  size (list_to_set (C:=gset A) l) = length (remove_dups l).
Proof.
  rewrite <-(size_list_to_set (C:=gset A) (remove_dups l)) by apply NoDup_remove_dups.
  f_equal. apply set_eq. intros x. by rewrite !elem_of_list_to_set, elem_of_remove_dups.
Qed.

Lemma size_list_to_set_le (l : list A) : (size (list_to_set (C:=gset A) l) ≤ length l)%nat.
Proof. rewrite size_list_to_set_remove_dups. apply length_remove_dups. Qed.

Lemma size_list_to_set_lt (l : list A) :
  ¬ NoDup l → (size (list_to_set (C:=gset A) l) < length l)%nat.
Proof. rewrite size_list_to_set_remove_dups. apply length_remove_dups_lt. Qed.
End SetSize.

Lemma filter_all {A} (P : A → Prop) `{∀ x, Decision (P x)} (l : list A) :
  (∀ x, x ∈ l → P x) → filter P l = l.
Proof.
  induction l as [|x l IH]; intros Hl; [done|].
  rewrite filter_cons_True by (apply Hl; left).
  f_equal. apply IH. intros y Hy. apply Hl. by right.
Qed.

Lemma score_reward_one_degenerate content valid_events priorities opt_score :
  degenerate (get_events content) valid_events →
  score_reward_one content valid_events priorities opt_score = Ok 0%Qc.
Proof. intros H. unfold score_reward_one. by rewrite decide_True. Qed.

(** ** Strictly increasing start times *)

Lemma adjacent_increasing_cons a b l :
  adjacent_increasing (a :: b :: l) = (ev_start a <? ev_start b) && adjacent_increasing (b :: l).
Proof.
  unfold adjacent_increasing. cbn [length]. rewrite !Nat.sub_1_r. cbn [Nat.pred].
  rewrite <-cons_seq, <-fmap_S_seq. cbn [forallb]. f_equal.
  generalize (seq 0 (length l)). intros js. induction js as [|j js IH]; [done|].
  rewrite fmap_cons. cbn [forallb]. by rewrite IH.
Qed.

Lemma adjacent_increasing_sorted l :
  adjacent_increasing l = true ↔ StronglySorted Z.lt (ev_start <$> l).
Proof.
  split.
  - intros H. apply Sorted_StronglySorted; [intros ???; lia|].
    induction l as [|a [|b l] IH]; simpl; [by constructor..|].
    rewrite adjacent_increasing_cons in H. apply andb_prop in H as [H1%Z.ltb_lt H2].
    constructor; [by apply IH|by constructor].
  - intros H%StronglySorted_Sorted.
    induction l as [|a [|b l] IH]; [done..|].
    rewrite adjacent_increasing_cons. simpl in H.
    inversion_clear H as [|?? Hs Hhd]. inversion_clear Hhd.
    apply andb_true_intro. split; [by apply Z.ltb_lt|by apply IH].
Qed.

(** ** The elimination loops *)

Lemma mark_pairs_spec l j ks acc ev :
  ev ∈ foldl (mark_pair l j) acc ks ↔
  ev ∈ acc ∨ ∃ k ej ek, k ∈ ks ∧ l !! j = Some ej ∧ l !! k = Some ek ∧
    overlap_test ej ek = true ∧ (ev = ej ∨ ev = ek).
Proof.
  revert acc. induction ks as [|k ks IH]; intros acc; simpl.
  - split; [by left|]. intros [?|(k & ? & ? & []%elem_of_nil & _)]; done.
  - rewrite IH. unfold mark_pair. split.
    + intros [Hacc|(k' & ej & ek & Hk' & Hj & Hk & Ht & Hev)].
      * destruct (l !! j) as [ej|] eqn:Ej; [|by left].
        destruct (l !! k) as [ek|] eqn:Ek; [|by left].
        destruct (overlap_test ej ek) eqn:Et; [|by left].
        apply elem_of_union in Hacc as [->%elem_of_singleton|Hacc].
        { right. exists k, ej, ek. split_and!; [left|done..|by right]. }
        apply elem_of_union in Hacc as [->%elem_of_singleton|Hacc]; [|by left].
        right. exists k, ej, ek. split_and!; [left|done..|by left].
      * right. exists k', ej, ek. split_and!; [by right|done..].
    + intros [Hacc|(k' & ej & ek & Hk' & Hj & Hk & Ht & Hev)].
      * left. destruct (l !! j), (l !! k); try done.
        destruct (overlap_test _ _); [|done]. by do 2 (apply elem_of_union; right).
      * apply elem_of_cons in Hk' as [->|Hk'].
        -- left. rewrite Hj, Hk, Ht. rewrite !elem_of_union, !elem_of_singleton.
           destruct Hev; auto.
        -- right. by exists k', ej, ek.
Qed.

Lemma mark_rows_spec l js acc ev :
  ev ∈ foldl (mark_row l) acc js ↔ ev ∈ acc ∨ overlapping_pair l (λ j, j ∈ js) ev.
Proof.
  revert acc. induction js as [|j js IH]; intros acc; simpl.
  - split; [by left|]. intros [?|(j & ? & ? & ? & []%elem_of_nil & _)]; done.
  - rewrite IH. unfold mark_row. rewrite mark_pairs_spec. split.
    + intros [[Hacc|(k & ej & ek & Hk & Hj & Hlk & Ht & Hev)]|(j' & k & ej & ek & Hj' & H)].
      * by left.
      * right. exists j, k, ej, ek. apply elem_of_seq in Hk. split_and!; [left|lia|done..].
      * right. exists j', k, ej, ek. split; [by right|done].
    + intros [Hacc|(j' & k & ej & ek & Hj' & Hlt & Hj & Hk & Ht & Hev)]; [by left; left|].
      apply elem_of_cons in Hj' as [->|Hj'].
      * left; right. exists k, ej, ek. split_and!; [|done..].
        apply lookup_lt_Some in Hk. apply elem_of_seq. lia.
      * right. by exists j', k, ej, ek.
Qed.

(** What the two loops compute. *)
Lemma overlapping_events_spec l ev :
  ev ∈ overlapping_events l ↔ overlapping_pair l (λ _, True) ev.
Proof.
  unfold overlapping_events. rewrite mark_rows_spec. split.
  - intros [[]%not_elem_of_empty|(j & k & ej & ek & _ & H)]. exists j, k, ej, ek. by split.
  - intros (j & k & ej & ek & _ & Hlt & Hj & Hk & Ht & Hev). right. exists j, k, ej, ek.
    split_and!; [|done..]. apply lookup_lt_Some in Hj. apply elem_of_seq. lia.
Qed.

(** ** Sums *)

Lemma foldl_add acc l : foldl Z.add acc l = acc + sum l.
Proof.
  unfold sum. revert acc. induction l as [|x l IH]; intros acc; cbn [foldl]; [lia|].
  rewrite (IH (acc + x)), (IH (0 + x)). lia.
Qed.

Lemma sum_cons x l : sum (x :: l) = x + sum l.
Proof. unfold sum at 1. simpl. apply foldl_add. Qed.

Lemma sum_perm l l' : l ≡ₚ l' → sum l = sum l'.
Proof. induction 1; rewrite ?sum_cons; lia. Qed.

Lemma sum_nonneg l : Forall (λ x, 0 ≤ x) l → 0 ≤ sum l.
Proof. induction 1; rewrite ?sum_cons; [done|lia]. Qed.

Lemma weighted_score_cons priorities ev l :
  weighted_score priorities (ev :: l) = weight priorities ev + weighted_score priorities l.
Proof. unfold weighted_score. by rewrite fmap_cons, sum_cons. Qed.

Lemma weighted_score_perm priorities l l' :
  l ≡ₚ l' → weighted_score priorities l = weighted_score priorities l'.
Proof. intros H. unfold weighted_score. apply sum_perm. by rewrite H. Qed.

(** * Conflicts and the optimum *)

Lemma conflict_sym a b : conflict a b → conflict b a.
Proof. unfold conflict. lia. Qed.

Lemma overlap_test_conflict a b : conflict a b → overlap_test a b = true.
Proof.
  unfold conflict, overlap_test. intros [H1 H2].
  apply andb_true_intro. split; [apply Z.leb_le|apply Z.geb_le]; lia.
Qed.

Lemma conflict_free_perm l l' : l ≡ₚ l' → conflict_free l → conflict_free l'.
Proof.
  induction 1 as [|x l l' Hp IH|x y l|l1 l2 l3 _ IH1 _ IH2]; simpl.
  - done.
  - intros [H1 H2]. split; [by rewrite <-Hp|by apply IH].
  - intros [[Hyx Hy]%Forall_cons [Hx Hl]]. split_and!; [|done..].
    constructor; [|done]. intros Hc. by apply Hyx, conflict_sym.
  - intros H. by apply IH2, IH1.
Qed.

Lemma conflict_free_filter (P : event_minutes → Prop) `{∀ x, Decision (P x)} l :
  (∀ j k a b, (j < k)%nat → l !! j = Some a → l !! k = Some b → P a → P b → ¬ conflict a b) →
  conflict_free (filter P l).
Proof.
  induction l as [|a l IH]; intros Hl; [done|].
  assert (conflict_free (filter P l)) as Hrest.
  { apply IH. intros j k ?? Hjk Hj Hk. apply (Hl (S j) (S k)); [lia|done..]. }
  rewrite filter_cons. case_decide as Ha; [|done]. simpl. split; [|done].
  apply Forall_forall. intros b [Hb [k Hk]%list_elem_of_lookup]%list_elem_of_filter.
  apply (Hl 0%nat (S k)); [lia|done..].
Qed.

(** No two of the events that the loops leave conflict. *)
Lemma surviving_events_conflict_free l : conflict_free (surviving_events l).
Proof.
  unfold surviving_events. apply conflict_free_filter.
  intros j k a b Hjk Hj Hk Ha _ Hc. apply Ha, overlapping_events_spec.
  exists j, k, a, b. split_and!; [done..|by apply overlap_test_conflict|by left].
Qed.

Lemma surviving_events_submseteq l : surviving_events l ⊆+ l.
Proof. apply sublist_submseteq, sublist_filter. Qed.

(** ** The order in which the set is iterated

    [existing_events] is a set and Python fixes no order for its iteration;
    the elements dropped by the loops, and so the score, are the same for
    every order. *)

Lemma overlap_test_sym a b : overlap_test a b = overlap_test b a.
Proof.
  unfold overlap_test. rewrite !Z.geb_leb. apply andb_comm.
Qed.

Lemma overlapping_events_alt l ev :
  ev ∈ overlapping_events l ↔
  ∃ j k other, j ≠ k ∧ l !! j = Some ev ∧ l !! k = Some other ∧ overlap_test ev other = true.
Proof.
  rewrite overlapping_events_spec. split.
  - intros (j & k & ej & ek & _ & Hjk & Hj & Hk & Ht & [->| ->]).
    + exists j, k, ek. split_and!; [lia|done..].
    + exists k, j, ej. rewrite overlap_test_sym. split_and!; [lia|done..].
  - intros (j & k & other & Hjk & Hj & Hk & Ht).
    destruct (decide (j < k)%nat).
    + exists j, k, ev, other. split_and!; [done..|by left].
    + exists k, j, other, ev. rewrite overlap_test_sym. split_and!; [done|lia|done..|by right].
Qed.

Lemma overlapping_events_perm l l' : l ≡ₚ l' → overlapping_events l = overlapping_events l'.
Proof.
  assert (∀ l l' ev, l ≡ₚ l' → ev ∈ overlapping_events l → ev ∈ overlapping_events l') as H.
  { clear. intros l l' ev [_ (f & Hf & Hl)]%Permutation_inj.
    rewrite !overlapping_events_alt. intros (j & k & other & Hjk & Hj & Hk & Ht).
    exists (f j), (f k), other. rewrite <-!Hl. split_and!; [|done..].
    intros E. by apply Hjk, Hf. }
  intros Hp. apply set_eq. intros ev. split; apply H; done.
Qed.

Lemma surviving_events_perm l l' : l ≡ₚ l' → surviving_events l ≡ₚ surviving_events l'.
Proof.
  intros Hp. unfold surviving_events. rewrite (overlapping_events_perm _ _ Hp).
  by apply filter_Permutation.
Qed.

Lemma surviving_score_perm priorities l l' :
  l ≡ₚ l' →
  weighted_score priorities (surviving_events l) = weighted_score priorities (surviving_events l').
Proof. intros Hp. by apply weighted_score_perm, surviving_events_perm. Qed.

(** ** Exhaustive search *)

Lemma elem_of_sublists {A} (l' l : list A) : l' `sublist_of` l → l' ∈ sublists l.
Proof.
  induction 1 as [|x l1 l2 _ IH|x l1 l2 _ IH]; simpl.
  - by apply list_elem_of_singleton.
  - apply elem_of_app. left. by apply list_elem_of_fmap_2.
  - apply elem_of_app. by right.
Qed.

Lemma sublists_sublist {A} (l' l : list A) : l' ∈ sublists l → l' `sublist_of` l.
Proof.
  revert l'. induction l as [|x l IH]; intros l'; simpl.
  - intros ->%list_elem_of_singleton. constructor.
  - intros [(l'' & -> & H)%list_elem_of_fmap|H]%elem_of_app.
    + by apply sublist_skip, IH.
    + by apply sublist_cons, IH.
Qed.

Lemma foldr_max_ge x l : x ∈ l → x ≤ foldr Z.max 0 l.
Proof. induction 1; simpl; lia. Qed.

Lemma foldr_max_elem l : 0 ∈ l → foldr Z.max 0 l ∈ l.
Proof.
  intros H0. assert (foldr Z.max 0 l = 0 ∨ foldr Z.max 0 l ∈ l) as [->|]; [|done..].
  clear H0. induction l as [|x l [IH|IH]]; simpl; [by left|..].
  - rewrite IH. destruct (Z.max_spec x 0) as [[_ ->]|[_ ->]]; [by left|right; left].
  - right. destruct (Z.max_spec x (foldr Z.max 0 l)) as [[_ ->]|[_ ->]]; [by right|left].
Qed.

Lemma best_score_optimal ref priorities :
  is_optimal_score ref priorities (best_score ref priorities).
Proof.
  unfold best_score. split.
  - assert (foldr Z.max 0 (weighted_score priorities <$> filter conflict_free (sublists ref))
            ∈ weighted_score priorities <$> filter conflict_free (sublists ref)) as H.
    { apply foldr_max_elem. apply (list_elem_of_fmap_2' _ _ []); [|done].
      apply list_elem_of_filter. split; [done|]. apply elem_of_sublists, sublist_nil_l. }
    apply list_elem_of_fmap in H as (sel & E & [Hcf Hsel]%list_elem_of_filter).
    exists sel. split_and!; [|done..]. by apply sublist_submseteq, sublists_sublist.
  - intros sel (sel' & Hp & Hsub)%submseteq_sublist_r Hcf.
    rewrite (weighted_score_perm _ _ _ Hp). apply foldr_max_ge, list_elem_of_fmap_2.
    apply list_elem_of_filter. split; [by eapply conflict_free_perm|by apply elem_of_sublists].
Qed.

(** ** Times in minutes of the extracted events *)

Lemma traverse_to_minutes_inv l l' : traverse to_minutes l = Ok l' → l' = minutes_of <$> l.
Proof.
  intros H%traverse_Ok_inv. induction H as [|ev m l l' Hev _ IH]; [done|].
  rewrite fmap_cons, IH. unfold minutes_of. by rewrite Hev.
Qed.

Lemma traverse_to_minutes l :
  Forall well_formed_event l → traverse to_minutes l = Ok (minutes_of <$> l).
Proof.
  intros H. destruct (traverse_Ok to_minutes l) as [l' Hl'].
  - eapply Forall_impl; [done|]. intros ev (? & ? & ? & _)%to_minutes_well_formed. by eexists.
  - by rewrite Hl', (traverse_to_minutes_inv _ _ Hl').
Qed.

Lemma elem_of_existing_events ev scheduled_events valid_events :
  ev ∈ elements (existing_events_of scheduled_events valid_events) ↔
  ev ∈ scheduled_events ∧ ev ∈ valid_events.
Proof.
  unfold existing_events_of.
  rewrite elem_of_elements, elem_of_list_to_set, list_elem_of_filter. tauto.
Qed.

Lemma existing_events_well_formed content valid_events :
  Forall well_formed_event (elements (existing_events_of (get_events content) valid_events)).
Proof.
  apply Forall_forall. intros ev [Hev _]%elem_of_existing_events.
  revert ev Hev. apply Forall_forall, get_events_well_formed.
Qed.

(** In the branch that scores, the result of score_reward_one. *)
Lemma score_reward_one_scored content valid_events priorities opt_score :
  ¬ degenerate (get_events content) valid_events →
  score_reward_one content valid_events priorities opt_score =
    (ratio ←' true_div
        (weighted_score priorities
           (surviving_events
              (minutes_of <$> elements (existing_events_of (get_events content) valid_events))))
        opt_score;
     Ok (ratio * Qc_of_Z 70)%Qc).
Proof.
  intros H. unfold score_reward_one. rewrite decide_False by done.
  by rewrite traverse_to_minutes by apply existing_events_well_formed.
Qed.

Lemma sorted_events_reward_one_total response :
  ∃ r, sorted_events_reward_one response = Ok r.
Proof.
  unfold sorted_events_reward_one. case_decide; [by eexists|].
  rewrite traverse_to_minutes by apply get_events_well_formed. simpl.
  destruct (forallb _ _); by eexists.
Qed.

(** ** Rewards as rationals *)

Lemma Qc_of_Z_le a b : a ≤ b → (Qc_of_Z a ≤ Qc_of_Z b)%Qc.
Proof. apply Z2Qc_inj_le. Qed.

Lemma Qc_of_Z_pos b : 0 < b → (0 < Qc_of_Z b)%Qc.
Proof. intros H. rewrite <-Z2Qc_inj_0. by apply (proj1 (Z2Qc_inj_lt _ _)). Qed.

Lemma Qc_of_Z_nonneg a : 0 ≤ a → (0 ≤ Qc_of_Z a)%Qc.
Proof. intros H. rewrite <-Z2Qc_inj_0. by apply Qc_of_Z_le. Qed.

Lemma ratio_bounds a b :
  0 ≤ a ≤ b → 0 < b → (0 ≤ Qc_of_Z a / Qc_of_Z b * Qc_of_Z 70 ≤ Qc_of_Z 70)%Qc.
Proof.
  intros [Ha Hab] Hb.
  pose proof (Qc_of_Z_pos b Hb) as Hb'.
  assert (Qc_of_Z a / Qc_of_Z b * Qc_of_Z b = Qc_of_Z a)%Qc as E.
  { rewrite Qcmult_comm. apply Qcmult_div_r. by apply not_symmetry, Qclt_not_eq. }
  assert (0 ≤ Qc_of_Z a / Qc_of_Z b)%Qc as H0.
  { apply (Qcmult_le_mono_pos_r _ _ (Qc_of_Z b)); [done|].
    rewrite E, Qcmult_0_l. by apply Qc_of_Z_nonneg. }
  assert (Qc_of_Z a / Qc_of_Z b ≤ 1)%Qc as H1.
  { apply (Qcmult_le_mono_pos_r _ _ (Qc_of_Z b)); [done|].
    rewrite E, Qcmult_1_l. by apply Qc_of_Z_le. }
  assert (0 ≤ Qc_of_Z 70)%Qc as H70 by by apply Qc_of_Z_nonneg.
  split.
  - by apply Qcmult_nonneg_nonneg.
  - rewrite <-(Qcmult_1_l (Qc_of_Z 70)) at 2. by apply Qcmult_le_mono_nonneg_r.
Qed.

Lemma weight_nonneg priorities ev : ev_start ev < ev_end ev → 0 < weight priorities ev.
Proof. intros H. unfold weight. case_decide; lia. Qed.

(** ** Adding an event that is apart from the others *)

Lemma overlap_test_false a b : overlap_test a b = false ↔ separated a b.
Proof.
  unfold overlap_test, separated. rewrite andb_false_iff, Z.leb_gt, Z.geb_leb, Z.leb_gt. lia.
Qed.

(** What the loops keep: the events that are apart from the event at every
    other position. *)
Lemma elem_of_surviving_events l ev :
  ev ∈ surviving_events l ↔
  ev ∈ l ∧ ∀ j k other, j ≠ k → l !! j = Some ev → l !! k = Some other → separated ev other.
Proof.
  unfold surviving_events. rewrite list_elem_of_filter, overlapping_events_alt. split.
  - intros [Hno Hev]. split; [done|]. intros j k other Hjk Hj Hk.
    apply overlap_test_false. destruct (overlap_test ev other) eqn:Ht; [|done].
    destruct Hno. by exists j, k, other.
  - intros [Hev Hsep]. split; [|done]. intros (j & k & other & Hjk & Hj & Hk & Ht).
    apply (Hsep j k other Hjk Hj), overlap_test_false in Hk. congruence.
Qed.

Lemma overlapping_events_cons_separated m l :
  Forall (separated m) l → overlapping_events (m :: l) = overlapping_events l.
Proof.
  intros Hsep. rewrite Forall_forall in Hsep.
  apply set_eq. intros ev. rewrite !overlapping_events_alt. split.
  - intros (j & k & other & Hjk & Hj & Hk & Ht).
    destruct j as [|j], k as [|k]; simpl in *; simplify_eq.
    + apply list_elem_of_lookup_2, Hsep, overlap_test_false in Hk. congruence.
    + apply list_elem_of_lookup_2, Hsep, overlap_test_false in Hj.
      rewrite overlap_test_sym in Hj. congruence.
    + exists j, k, other. split_and!; [congruence|done..].
  - intros (j & k & other & Hjk & Hj & Hk & Ht).
    exists (S j), (S k), other. split_and!; [congruence|done..].
Qed.

Lemma surviving_events_cons_separated m l :
  ev_start m < ev_end m → Forall (separated m) l →
  surviving_events (m :: l) = m :: surviving_events l.
Proof.
  intros Hpos Hsep. unfold surviving_events.
  rewrite overlapping_events_cons_separated by done.
  apply filter_cons_True. rewrite overlapping_events_alt.
  intros (j & _ & _ & _ & Hj%list_elem_of_lookup_2 & _).
  rewrite Forall_forall in Hsep. apply Hsep in Hj. unfold separated in Hj. lia.
Qed.

Lemma not_degenerate scheduled_events valid_events :
  ¬ degenerate scheduled_events valid_events ↔
  NoDup scheduled_events ∧ (∀ ev, ev ∈ scheduled_events → ev ∈ valid_events) ∧
  (2 ≤ length scheduled_events)%nat.
Proof.
  unfold degenerate, existing_events_of. split.
  - intros Hdeg.
    assert (∀ ev, ev ∈ scheduled_events → ev ∈ valid_events) as Hall.
    { intros ev Hev. destruct (decide (ev ∈ valid_events)) as [|Hno]; [done|].
      destruct Hdeg. left. eapply Nat.le_lt_trans; [apply size_list_to_set_le|].
      by eapply length_filter_lt. }
    rewrite filter_all in Hdeg by done.
    assert (NoDup scheduled_events) as Hnd.
    { destruct (decide (NoDup scheduled_events)) as [|Hno]; [done|].
      destruct Hdeg. left. by apply size_list_to_set_lt. }
    split_and!; [done..|]. rewrite size_list_to_set in Hdeg by done. lia.
  - intros (Hnd & Hall & Hlen). rewrite filter_all by done.
    rewrite size_list_to_set by done. lia.
Qed.

Lemma surviving_score_nonneg scheduled_events valid_events priorities :
  Forall (λ ev, ev_start ev < ev_end ev) (minutes_of <$> valid_events) →
  0 ≤ weighted_score priorities
        (surviving_events
           (minutes_of <$> elements (existing_events_of scheduled_events valid_events))).
Proof.
  intros Hpos. apply sum_nonneg, Forall_fmap, Forall_forall. intros m Hm. simpl.
  apply Z.lt_le_incl, weight_nonneg.
  eapply elem_of_submseteq in Hm; [|apply surviving_events_submseteq].
  apply list_elem_of_fmap in Hm as (ev & -> & [_ Hev]%elem_of_existing_events).
  rewrite Forall_forall in Hpos. by apply Hpos, list_elem_of_fmap_2.
Qed.

Lemma reward_mono a b c :
  a ≤ b → 0 < c →
  (Qc_of_Z a / Qc_of_Z c * Qc_of_Z 70 ≤ Qc_of_Z b / Qc_of_Z c * Qc_of_Z 70)%Qc.
Proof.
  intros Hab Hc. pose proof (Qc_of_Z_pos c Hc) as Hc'.
  assert (∀ x, Qc_of_Z x / Qc_of_Z c * Qc_of_Z c = Qc_of_Z x)%Qc as E.
  { intros x. rewrite Qcmult_comm. apply Qcmult_div_r. by apply not_symmetry, Qclt_not_eq. }
  apply Qcmult_le_mono_nonneg_r; [by apply Qc_of_Z_nonneg|].
  apply (Qcmult_le_mono_pos_r _ _ (Qc_of_Z c)); [done|]. rewrite !E. by apply Qc_of_Z_le.
Qed.

Lemma score_reward_one_nonneg content valid_events priorities opt_score :
  Forall (λ ev, ev_start ev < ev_end ev) (minutes_of <$> valid_events) →
  0 < opt_score →
  ∃ r, score_reward_one content valid_events priorities opt_score = Ok r ∧ (0 ≤ r)%Qc.
Proof.
  intros Hpos Hopt.
  destruct (decide (degenerate (get_events content) valid_events)) as [Hdeg|Hdeg].
  - exists 0%Qc. split; [by apply score_reward_one_degenerate|done].
  - rewrite score_reward_one_scored by done.
    unfold true_div. rewrite decide_False by lia. simpl. eexists. split; [done|].
    eapply Qcle_trans; [|apply (reward_mono 0); [by apply surviving_score_nonneg|done]].
    rewrite Z2Qc_inj_0. unfold Qcdiv. by rewrite !Qcmult_0_l.
Qed.

(** Adding a reference event whose interval is apart from those of the
    events of a completion never lowers the reward. *)
Theorem score_monotone_when_separated content content' e valid_events priorities opt_score ref :
  traverse to_minutes valid_events = Ok ref →
  Forall (λ ev, ev_start ev < ev_end ev) ref →
  0 < opt_score →
  e ∈ valid_events → e ∉ get_events content →
  get_events content' ≡ₚ e :: get_events content →
  Forall (λ ev, separated (minutes_of e) (minutes_of ev)) (get_events content) →
  ∃ r r', score_reward_one content valid_events priorities opt_score = Ok r ∧
          score_reward_one content' valid_events priorities opt_score = Ok r' ∧
          (r ≤ r')%Qc.
Proof.
  intros ->%traverse_to_minutes_inv Hpos Hopt He Hnew Hperm Hsep.
  destruct (decide (degenerate (get_events content) valid_events)) as [Hdeg|Hdeg].
  { destruct (score_reward_one_nonneg content' valid_events priorities opt_score) as (r' & ? & ?);
      [done..|].
    exists 0%Qc, r'. split_and!; [by apply score_reward_one_degenerate|done..]. }
  pose proof Hdeg as (Hnd & Hall & Hlen)%not_degenerate.
  assert (¬ degenerate (get_events content') valid_events) as Hdeg'.
  { apply not_degenerate. split_and!.
    - rewrite Hperm. by constructor.
    - intros ev Hev. rewrite Hperm in Hev. apply elem_of_cons in Hev as [->|?]; auto.
    - rewrite Hperm. simpl. lia. }
  rewrite !score_reward_one_scored by done.
  unfold true_div. rewrite !decide_False by lia. simpl. eexists _, _. split_and!; [done..|].
  apply reward_mono; [|done].
  assert (∀ evs, NoDup evs → (∀ ev, ev ∈ evs → ev ∈ valid_events) →
            elements (existing_events_of evs valid_events) ≡ₚ evs) as Hels.
  { intros evs ??. unfold existing_events_of. rewrite filter_all by done.
    by apply elements_list_to_set. }
  assert (elements (existing_events_of (get_events content') valid_events)
            ≡ₚ e :: get_events content) as Hels'.
  { rewrite <-Hperm. apply Hels.
    - rewrite Hperm. by constructor.
    - intros ev Hev. rewrite Hperm in Hev. apply elem_of_cons in Hev as [->|?]; auto. }
  rewrite (surviving_score_perm _
             (minutes_of <$> elements (existing_events_of (get_events content') valid_events))
             (minutes_of e :: (minutes_of <$> get_events content)))
    by by rewrite Hels'.
  rewrite (surviving_score_perm _
             (minutes_of <$> elements (existing_events_of (get_events content) valid_events))
             (minutes_of <$> get_events content))
    by by rewrite Hels.
  rewrite surviving_events_cons_separated, weighted_score_cons.
  - assert (0 < weight priorities (minutes_of e)); [|lia].
    apply weight_nonneg. rewrite Forall_forall in Hpos. by apply Hpos, list_elem_of_fmap_2.
  - rewrite Forall_forall in Hpos. by apply Hpos, list_elem_of_fmap_2.
  - by apply Forall_fmap.
Qed.

(** * Printing and reading numbers *)

(** ** Decimal numerals *)

Lemma digit_char_digits d : 0 ≤ d ≤ 9 → digit_char d ∈ digits ∧ digit_value (digit_char d) = d.
Proof.
  intros Hd. assert (d ∈ [0; 1; 2; 3; 4; 5; 6; 7; 8; 9]) as H.
  { rewrite !elem_of_cons. lia. }
  rewrite !elem_of_cons, elem_of_nil in H.
  destruct_or!; subst; (split; [apply (bool_decide_unpack _); by vm_compute|done]).
Qed.

Lemma digits_is_digit c : c ∈ digits → is_digit c = true.
Proof. revert c. apply Forall_forall. apply (bool_decide_unpack _). by vm_compute. Qed.

Lemma digits_plain c :
  c ∈ digits →
  int_space c = false ∧ c ≠ ":"%char ∧ c ≠ "-"%char ∧ c ≠ "+"%char ∧ c ≠ "<"%char.
Proof. revert c. apply Forall_forall. apply (bool_decide_unpack _). by vm_compute. Qed.

Lemma decimal_fuel_digits fuel n : 0 ≤ n → Forall (λ c, c ∈ digits) (decimal_fuel fuel n).
Proof.
  revert n. induction fuel as [|fuel IH]; intros n Hn; simpl; [constructor|].
  destruct (Z.ltb_spec n 10).
  - constructor; [|constructor]. apply digit_char_digits. lia.
  - apply Forall_app. split; [apply IH; apply Z.div_pos; lia|].
    constructor; [|constructor]. apply digit_char_digits.
    pose proof (Z.mod_pos_bound n 10). lia.
Qed.

Lemma decimal_fuel_enough f f' n :
  (1 ≤ f)%nat → (f ≤ f')%nat → 0 ≤ n < 2 ^ Z.of_nat f →
  decimal_fuel f' n = decimal_fuel f n.
Proof.
  revert f' n. induction f as [|f IH]; intros f' n Hf Hff' Hn; [lia|].
  destruct f' as [|f']; [lia|]. simpl. destruct (Z.ltb_spec n 10); [done|].
  f_equal. rewrite Nat2Z.inj_succ, Z.pow_succ_r in Hn by lia.
  assert (n / 10 < 2 ^ Z.of_nat f).
  { apply Z.div_lt_upper_bound; lia. }
  destruct f as [|f]; [simpl in *; lia|].
  apply IH; [lia|lia|]. split; [apply Z.div_pos; lia|done].
Qed.

Lemma decimal_fuel_adequate f n :
  0 ≤ n < 2 ^ Z.of_nat f → (1 ≤ f)%nat → decimal_fuel f n = decimal n.
Proof.
  intros Hn Hf. unfold decimal.
  assert (0 ≤ n < 2 ^ Z.of_nat (S (Z.to_nat (Z.log2 n)))) as Hlog.
  { rewrite Nat2Z.inj_succ, Z2Nat.id by apply Z.log2_nonneg.
    destruct (decide (n = 0)) as [->|]; [done|]. split; [lia|]. apply Z.log2_spec. lia. }
  destruct (decide (f ≤ S (Z.to_nat (Z.log2 n)))%nat).
  - symmetry. by apply decimal_fuel_enough.
  - apply decimal_fuel_enough; [lia|lia|done].
Qed.

Lemma decimal_small n : 0 ≤ n < 10 → decimal n = [digit_char n].
Proof.
  intros Hn. unfold decimal. simpl. destruct (Z.ltb_spec n 10); [done|lia].
Qed.

Lemma decimal_step n :
  10 ≤ n → decimal n = decimal (n / 10) ++ [digit_char (n mod 10)].
Proof.
  intros Hn. unfold decimal at 1. simpl. destruct (Z.ltb_spec n 10); [lia|].
  f_equal. apply decimal_fuel_adequate.
  - split; [apply Z.div_pos; lia|]. apply Z.div_lt_upper_bound; [lia|].
    rewrite Z2Nat.id by apply Z.log2_nonneg.
    pose proof (Z.log2_spec n). rewrite Z.pow_succ_r in * by apply Z.log2_nonneg. lia.
  - assert (3 ≤ Z.log2 n); [|lia]. apply Z.log2_le_pow2; lia.
Qed.

Lemma decimal_digits n : 0 ≤ n → Forall (λ c, c ∈ digits) (decimal n).
Proof. apply decimal_fuel_digits. Qed.

(** Induction on the decimal digits of a number. *)
Lemma decimal_ind (P : Z → Prop) :
  (∀ n, 0 ≤ n < 10 → P n) → (∀ n, 10 ≤ n → P (n / 10) → P n) → ∀ n, 0 ≤ n → P n.
Proof.
  intros Hsmall Hstep n Hn. remember (Z.to_nat n) as k eqn:Hk.
  revert n Hn Hk. induction k as [k IH] using lt_wf_ind. intros n Hn ->.
  destruct (decide (n < 10)); [apply Hsmall; lia|].
  assert (0 ≤ n / 10 < n).
  { split; [apply Z.div_pos; lia|apply Z.div_lt; lia]. }
  apply Hstep; [lia|]. apply (IH (Z.to_nat (n / 10))); lia.
Qed.

Lemma int_digits_snoc s d acc b v :
  int_digits acc b s = Some v → d ∈ digits →
  int_digits acc b (s ++ [d]) = Some (10 * v + digit_value d).
Proof.
  intros Hs Hd%digits_is_digit. revert acc b Hs. induction s as [|c s IH]; intros acc b; simpl.
  - destruct b; [|done]. intros [= ->]. by rewrite Hd.
  - destruct (is_digit c); [apply IH|]. destruct (_ && _); [apply IH|done].
Qed.

(** [int] reads back what [str] prints. *)
Lemma int_digits_decimal n : 0 ≤ n → int_digits 0 false (decimal n) = Some n.
Proof.
  revert n. apply decimal_ind.
  - intros n Hn. rewrite decimal_small by done. simpl.
    destruct (digit_char_digits n) as [Hd ->]; [lia|]. by rewrite (digits_is_digit _ Hd).
  - intros n Hn IH. rewrite decimal_step by done.
    rewrite (int_digits_snoc _ _ _ _ (n / 10)); [| done |].
    + destruct (digit_char_digits (n mod 10)) as [_ ->].
      * pose proof (Z.mod_pos_bound n 10). lia.
      * f_equal. pose proof (Z.div_mod n 10). lia.
    + apply digit_char_digits. pose proof (Z.mod_pos_bound n 10). lia.
Qed.

Lemma decimal_nonempty n : decimal n ≠ [].
Proof. unfold decimal. simpl. destruct (n <? 10); [done|]. by destruct (decimal_fuel _ _). Qed.

(** ** minutes_to_time and time_to_minutes *)

(** A number below 10^k has at most k digits, and conversely. *)
Lemma decimal_length n k :
  0 ≤ n → 1 ≤ k → Z.of_nat (length (decimal n)) ≤ k ↔ n < 10 ^ k.
Proof.
  intros Hn. revert k. revert n Hn.
  apply (decimal_ind (λ n, ∀ k, 1 ≤ k → Z.of_nat (length (decimal n)) ≤ k ↔ n < 10 ^ k)).
  - intros n Hn k Hk. rewrite decimal_small by done. simpl.
    assert (10 ^ 1 ≤ 10 ^ k) as H by (apply Z.pow_le_mono_r; lia).
    rewrite Z.pow_1_r in H. lia.
  - intros n Hn IH k Hk. rewrite decimal_step, length_app by done. simpl.
    pose proof (decimal_nonempty (n / 10)) as Hne.
    pose proof (Z.div_mod n 10) as Hdiv. pose proof (Z.mod_pos_bound n 10) as Hmod.
    destruct (decide (k = 1)) as [->|Hk1].
    + rewrite Z.pow_1_r. destruct (decimal (n / 10)); simpl in *; [done|lia].
    + specialize (IH (k - 1)). replace k with (Z.succ (k - 1)) at 2 by lia.
      rewrite Z.pow_succ_r by lia.
      assert (Z.of_nat (length (decimal (n / 10))) ≤ k - 1 ↔ n / 10 < 10 ^ (k - 1)) as IH'
        by (apply IH; lia).
      lia.
Qed.

Lemma lstrip_plain s : stops int_space s → lstrip s = s.
Proof. destruct s as [|c s]; simpl; [done|]. by intros ->. Qed.

Lemma strip_plain s : Forall (λ c, int_space c = false) s → strip s = s.
Proof.
  intros Hs. unfold strip.
  assert (∀ l, Forall (λ c, int_space c = false) l → lstrip l = l) as Hl.
  { intros l Hl. apply lstrip_plain. by destruct Hl. }
  rewrite (Hl s Hs), Hl by by apply Forall_reverse.
  apply reverse_involutive.
Qed.

Lemma decimal_plain n :
  0 ≤ n →
  Forall (λ c, int_space c = false ∧ c ≠ ":"%char ∧ c ≠ "-"%char ∧ c ≠ "+"%char ∧ c ≠ "<"%char)
    (decimal n).
Proof.
  intros Hn. eapply Forall_impl; [by apply decimal_digits|]. apply digits_plain.
Qed.

(** The digits that [int] counts in a decimal numeral are all of it. *)
Lemma decimal_count n :
  0 ≤ n → filter (λ c, is_digit c = true) (decimal n) = decimal n.
Proof.
  intros Hn. apply filter_all. intros c Hc. apply digits_is_digit.
  revert c Hc. by apply Forall_forall, decimal_digits.
Qed.

Lemma decimal_within_limit n :
  0 ≤ n → n < 10 ^ int_max_str_digits →
  (int_max_str_digits <? Z.of_nat (length (decimal n))) = false.
Proof. intros Hn Hlim. apply Z.ltb_ge. by apply decimal_length. Qed.

Lemma decimal_beyond_limit n :
  10 ^ int_max_str_digits ≤ n →
  (int_max_str_digits <? Z.of_nat (length (decimal n))) = true.
Proof.
  intros Hlim. apply Z.ltb_lt.
  assert (0 < 10 ^ int_max_str_digits) as Hpos by by apply Z.pow_pos_nonneg.
  assert (0 ≤ n) as Hn by lia.
  assert (1 ≤ int_max_str_digits) as Hk by done.
  pose proof (decimal_length n int_max_str_digits Hn Hk). lia.
Qed.

Lemma py_int_decimal n : 0 ≤ n → n < 10 ^ int_max_str_digits → py_int (decimal n) = Ok n.
Proof.
  intros Hn Hlim. unfold py_int. pose proof (decimal_plain n Hn) as Hp.
  rewrite strip_plain by (eapply Forall_impl; [done|]; by intros c (? & _)).
  pose proof (int_digits_decimal n Hn) as Hd. pose proof (decimal_nonempty n) as Hne.
  pose proof (decimal_count n Hn) as Hc. pose proof (decimal_within_limit n Hn Hlim) as Hl.
  destruct (decimal n) as [|c b]; [done|].
  apply Forall_cons in Hp as [(_ & _ & Hminus & Hplus & _) _].
  destruct (Ascii.eqb_spec c "-"%char); [done|]. destruct (Ascii.eqb_spec c "+"%char); [done|].
  by rewrite Hd, Hc, Hl.
Qed.

(** [int] reads back what the two-column format prints, for every integer
    of at most 4300 digits. *)
Lemma py_int_zero_padded n :
  Z.abs n < 10 ^ int_max_str_digits → py_int (zero_padded n) = Ok n.
Proof.
  intros Hlim. unfold zero_padded.
  destruct (Z.ltb_spec n 0); [|destruct (Z.ltb_spec n 10)].
  - unfold py_int. pose proof (decimal_plain (- n)) as Hp.
    rewrite strip_plain.
    + simpl. rewrite int_digits_decimal, decimal_count, decimal_within_limit by lia.
      f_equal. lia.
    + constructor; [done|]. eapply Forall_impl; [apply Hp; lia|]. by intros c (? & _).
  - rewrite decimal_small by lia. destruct (digit_char_digits n) as [Hd Hv]; [lia|].
    pose proof (digits_plain _ Hd) as (Hsp & _). unfold py_int.
    rewrite strip_plain by (repeat constructor; done). simpl.
    rewrite (digits_is_digit _ Hd), Hv. simpl.
    rewrite !filter_cons_True by (by rewrite ?(digits_is_digit _ Hd)). done.
  - apply py_int_decimal; lia.
Qed.

Lemma zero_padded_no_colon n : Forall (λ c, c ≠ ":"%char) (zero_padded n).
Proof.
  unfold zero_padded.
  assert (∀ m, 0 ≤ m → Forall (λ c, c ≠ ":"%char) (decimal m)) as H.
  { intros m Hm. eapply Forall_impl; [by apply decimal_plain|]. by intros c (_ & ? & _). }
  destruct (Z.ltb_spec n 0); [|destruct (Z.ltb_spec n 10)].
  - constructor; [done|]. apply H. lia.
  - constructor; [done|]. by apply H.
  - apply H. lia.
Qed.

Lemma split_no_sep sep s : Forall (λ c, c ≠ sep) s → split sep s = [s].
Proof.
  induction 1 as [|c s Hc _ IH]; simpl; [done|].
  destruct (Ascii.eqb_spec c sep); [done|]. by rewrite IH.
Qed.

Lemma split_app_sep sep a b :
  Forall (λ c, c ≠ sep) a → split sep (a ++ sep :: b) = a :: split sep b.
Proof.
  induction 1 as [|c a Hc _ IH]; simpl.
  - by rewrite Ascii.eqb_refl.
  - destruct (Ascii.eqb_spec c sep); [done|]. by rewrite IH.
Qed.

Lemma split_length sep s :
  length (split sep s) = S (length (filter (λ c, c = sep) s)).
Proof.
  induction s as [|c s IH]; simpl; [done|].
  destruct (Ascii.eqb_spec c sep) as [->|Hne].
  - rewrite filter_cons_True by done. simpl. by rewrite IH.
  - rewrite filter_cons_False by done. destruct (split sep s); simpl in *; [done|lia].
Qed.

Lemma zero_padded_digits a b :
  a ∈ digits → b ∈ digits → zero_padded (10 * digit_value a + digit_value b) = [a; b].
Proof.
  intros Ha Hb.
  assert (Forall (λ a, Forall (λ b, zero_padded (10 * digit_value a + digit_value b) = [a; b])
                         digits) digits)
    as H by (apply (bool_decide_unpack _); by vm_compute).
  rewrite Forall_forall in H. specialize (H a Ha). rewrite Forall_forall in H. by apply H.
Qed.

Lemma zero_padded_two_digits n :
  0 ≤ n < 100 → ∃ a b, a ∈ digits ∧ b ∈ digits ∧ zero_padded n = [a; b].
Proof.
  intros Hn.
  destruct (digit_char_digits (n / 10)) as [Ha Hva].
  { split; [apply Z.div_pos; lia|]. apply Z.lt_succ_r, Z.div_lt_upper_bound; lia. }
  destruct (digit_char_digits (n mod 10)) as [Hb Hvb].
  { pose proof (Z.mod_pos_bound n 10). lia. }
  exists (digit_char (n / 10)), (digit_char (n mod 10)). split_and!; [done..|].
  rewrite <-zero_padded_digits by done. f_equal. rewrite Hva, Hvb.
  pose proof (Z.div_mod n 10). lia.
Qed.

Lemma split_time a b c d :
  a ∈ digits → b ∈ digits → c ∈ digits → d ∈ digits →
  split ":"%char [a; b; ":"%char; c; d] = [[a; b]; [c; d]].
Proof. intros. simpl. by rewrite !digit_not_colon. Qed.

Lemma split_printed_time m :
  split ":"%char (printed_time m) = [zero_padded (m / 60); zero_padded (m mod 60)].
Proof.
  unfold printed_time.
  by rewrite split_app_sep, split_no_sep by apply zero_padded_no_colon.
Qed.

Lemma limit_above_100 : 100 ≤ 10 ^ int_max_str_digits.
Proof. change 100 with (10 ^ 2). by apply Z.pow_le_mono_r. Qed.

Lemma format_02d_spec n :
  format_02d n =
    if decide (Z.abs n < 10 ^ int_max_str_digits) then Ok (zero_padded n) else Err ValueError.
Proof.
  unfold format_02d. case_decide as Hlim.
  - by rewrite decimal_within_limit by lia.
  - by rewrite decimal_beyond_limit by lia.
Qed.

(** minutes_to_time prints unless the hours have more than 4300 digits. *)
Lemma minutes_to_time_spec m :
  minutes_to_time m =
    if decide (Z.abs (m / 60) < 10 ^ int_max_str_digits) then Ok (printed_time m)
    else Err ValueError.
Proof.
  unfold minutes_to_time. rewrite !format_02d_spec. case_decide as Hlim; [|done]. simpl.
  rewrite decide_True; [done|].
  pose proof (Z.mod_pos_bound m 60). pose proof limit_above_100. lia.
Qed.

Lemma time_to_minutes_printed m :
  Z.abs (m / 60) < 10 ^ int_max_str_digits → time_to_minutes (printed_time m) = Ok m.
Proof.
  intros Hlim. unfold time_to_minutes.
  rewrite split_printed_time, (py_int_zero_padded (m / 60)) by done. simpl.
  rewrite py_int_zero_padded.
  - simpl. f_equal. pose proof (Z.div_mod m 60). lia.
  - pose proof (Z.mod_pos_bound m 60). pose proof limit_above_100. lia.
Qed.

(** The fields of a printed time of the accepted shape. *)
Lemma printed_time_shaped_inv m a b c d :
  is_digit a = true → is_digit b = true → is_digit c = true → is_digit d = true →
  printed_time m = [a; b; ":"%char; c; d] →
  m / 60 = 10 * digit_value a + digit_value b ∧
  m mod 60 = 10 * digit_value c + digit_value d.
Proof.
  intros Ha%is_digit_digits Hb%is_digit_digits Hc%is_digit_digits Hd%is_digit_digits E.
  pose proof (split_printed_time m) as Hs. rewrite E, split_time in Hs by done.
  injection Hs as Hh Hm.
  pose proof (zero_padded_digits a b Ha Hb) as H1. rewrite Hh in H1.
  pose proof (zero_padded_digits c d Hc Hd) as H2. rewrite Hm in H2.
  pose proof (digit_value_range _ Ha). pose proof (digit_value_range _ Hb).
  pose proof (digit_value_range _ Hc). pose proof (digit_value_range _ Hd).
  pose proof limit_above_100.
  pose proof (py_int_zero_padded (10 * digit_value a + digit_value b)) as P1.
  pose proof (py_int_zero_padded (10 * digit_value c + digit_value d)) as P2.
  rewrite H1 in P1. rewrite H2 in P2.
  destruct (decide (Z.abs (m / 60) < 10 ^ int_max_str_digits)) as [Hl|Hl].
  - pose proof (py_int_zero_padded (m / 60) Hl) as Q1.
    pose proof (py_int_zero_padded (m mod 60)) as Q2.
    pose proof (Z.mod_pos_bound m 60).
    rewrite P1 in Q1 by lia. rewrite P2 in Q2 by lia.
    split; [injection Q1; lia|injection Q2; lia].
  - exfalso. apply Hl. clear P1 P2.
    assert (∀ n, 100 ≤ Z.abs n → (2 < length (zero_padded n))%nat) as Hlong.
    { intros n Hn. unfold zero_padded. destruct (Z.ltb_spec n 0).
      - assert (¬ Z.of_nat (length (decimal (- n))) ≤ 2) by (rewrite decimal_length; lia).
        simpl. lia.
      - destruct (Z.ltb_spec n 10); [lia|].
        assert (¬ Z.of_nat (length (decimal n)) ≤ 2) by (rewrite decimal_length; lia). lia. }
    destruct (decide (100 ≤ Z.abs (m / 60))) as [Hbig|]; [|lia].
    apply Hlong in Hbig. rewrite <-Hh in Hbig. simpl in Hbig. lia.
Qed.

(** ** get_events on a text around an event block *)

Lemma lt_free_split x s u v :
  lt_free x → x ++ s = u ++ "<"%char :: v → ∃ u', u = x ++ u' ∧ s = u' ++ "<"%char :: v.
Proof.
  intros Hx. revert u. induction Hx as [|c x Hc _ IH]; intros u E; simpl in *.
  - by exists u.
  - destruct u as [|c' u]; simpl in E; [injection E as Hc' _; by destruct Hc|].
    injection E as <- E. destruct (IH u E) as (u' & -> & ->). by exists u'.
Qed.

(** In a text made of pieces that are tags or have no [<], every [<] is the
    start of one of the tags. *)
Lemma lt_in_segments segs u v :
  Forall (λ x, lt_free x ∨ tag x) segs →
  concat segs = u ++ "<"%char :: v →
  ∃ i T z, segs !! i = Some T ∧ tag T ∧ "<"%char :: v = T ++ z ∧ u = concat (take i segs).
Proof.
  intros Hsegs. revert u. induction Hsegs as [|x segs Hx _ IH]; intros u E; simpl in E.
  - by destruct u.
  - destruct Hx as [Hx|Hx].
    + apply lt_free_split in E as (u' & -> & E); [|done].
      destruct (IH u' E) as (i & T & z & Hi & HT & Hv & ->).
      by exists (S i), T, z.
    + pose proof Hx as (t & -> & Ht). destruct u as [|c u]; simpl in E.
      * injection E as <-. by exists 0%nat, ("<"%char :: t), (concat segs).
      * injection E as <- E. apply lt_free_split in E as (u' & -> & E); [|done].
        destruct (IH u' E) as (i & T & z & Hi & HT & Hv & ->).
        by exists (S i), T, z.
Qed.

Lemma tag_not_lt_free x : tag x → lt_free x → False.
Proof. intros (t & -> & _) [H _]%Forall_cons. done. Qed.

Lemma spaces_lt_free ws : spaces ws → lt_free ws.
Proof. intros H. eapply Forall_impl; [done|]. by intros c Hc ->. Qed.

Lemma name_shaped_lt_free name : name_shaped name → lt_free name.
Proof. intros [_ H]. eapply Forall_impl; [done|]. by intros c Hc ->. Qed.

Lemma time_shaped_lt_free t : time_shaped t → lt_free t.
Proof.
  intros (a & b & c & d & -> & Ha & Hb & Hc & Hd).
  repeat constructor; try done; by intros ->.
Qed.

(** Inside an event block, after its first character, a [<] starts one of
    the inner tags. *)
Lemma capture_block_inner ev blk u v :
  capture_block ev blk → blk = u ++ "<"%char :: v → u ≠ [] →
  ∃ T z, T ∈ inner_tags ∧ "<"%char :: v = T ++ z.
Proof.
  intros (ws1 & ws2 & ws3 & ws4 & -> & H1 & H2 & H3 & H4 & Hname & Hst & Hen) E Hu.
  apply spaces_lt_free in H1, H2, H3, H4.
  apply name_shaped_lt_free in Hname. apply time_shaped_lt_free in Hst, Hen.
  destruct (lt_in_segments
    [ "<event>" : text; ws1; "<name>" : text; ev.1.1; "</name>" : text; ws2;
      "<start>" : text; ev.1.2; "</start>" : text; ws3; "<end>" : text; ev.2;
      "</end>" : text; ws4; "</event>" : text ] u v)
    as (i & T & z & Hi & HT & Hv & ->).
  - repeat (constructor; [first [by left|right; eexists; split; [done|]; by repeat constructor]|]).
    constructor.
  - rewrite <-E. cbn [concat]. by rewrite (right_id_L [] (++)).
  - exists T, z. split; [|done].
    destruct i as [|i]; [done|]. clear E Hu Hv.
    do 14 (destruct i as [|i];
      [simpl in Hi; simplify_eq;
       first [by destruct (tag_not_lt_free _ HT)
             |unfold inner_tags; rewrite !elem_of_cons; tauto]|]).
    done.
Qed.

Lemma capture_block_open ev blk : capture_block ev blk → ∃ w, blk = "<event>" ++ w.
Proof. intros (? & ? & ? & ? & -> & _). by eexists. Qed.

(** An event block that starts before another one ends before it. *)
Lemma capture_block_no_straddle ev ev' blk blk' pre rest r' :
  capture_block ev blk → capture_block ev' blk' → pre ≠ [] →
  pre ++ blk ++ rest = blk' ++ r' →
  ∃ p', pre = blk' ++ p' ∧ r' = p' ++ blk ++ rest.
Proof.
  intros Hblk Hblk' Hpre E.
  apply app_eq_inv in E as [(p' & -> & ->)|(y & -> & E)]; [by exists p'|].
  destruct y as [|c y].
  { exists []. simpl in E. rewrite !(right_id_L [] (++)). by split. }
  apply capture_block_open in Hblk as (w & ->).
  assert (c = "<"%char) as -> by (simpl in E; injection E as Hc _; done).
  destruct (capture_block_inner ev' _ pre y Hblk' eq_refl Hpre) as (T & z & HT & Hy).
  rewrite Hy in E. unfold inner_tags in HT.
  rewrite !elem_of_cons, elem_of_nil in HT. destruct_or!; subst; simpl in E; done.
Qed.

Lemma no_block_at_app s rest : s ≠ [] → no_block_at (s ++ rest) → no_block_at s.
Proof.
  intros _ Hno ev blk r Hblk ->. apply (Hno ev blk (r ++ rest) Hblk).
  by rewrite <-(assoc_L (++)).
Qed.

(** get_events around one event block: the events before it, its own
    triple, the events after it. *)
Lemma get_events_around_block pre ev blk rest :
  capture_block ev blk →
  get_events (pre ++ blk ++ rest) = get_events pre ++ ev :: get_events rest.
Proof.
  intros Hblk. remember (length pre) as n eqn:Hn. revert pre Hn.
  induction n as [n IH] using lt_wf_ind. intros pre ->.
  destruct pre as [|c pre].
  { rewrite get_events_nil. cbn [app]. by apply (get_events_block ev). }
  destruct (re_match capture_regex ((c :: pre) ++ blk ++ rest)) as [[g r']|] eqn:E.
  - apply capture_match_inv in E as (ev' & blk' & E & Hblk' & _).
    destruct (capture_block_no_straddle ev ev' blk blk' (c :: pre) rest r')
      as (p' & Hp & ->); [done..|].
    assert (length p' < length (c :: pre))%nat as Hlt.
    { rewrite Hp, length_app. apply capture_block_nonempty in Hblk'.
      destruct blk'; simpl; [done|lia]. }
    rewrite Hp, <-(assoc_L (++)), (get_events_block ev' blk' (p' ++ blk ++ rest)) by done.
    rewrite (get_events_block ev' blk' p') by done.
    by rewrite (IH (length p') Hlt p' eq_refl).
  - apply re_match_capture_None in E. simpl in E.
    rewrite <-app_comm_cons, !get_events_skip.
    + apply (IH (length pre)); [simpl; lia|done].
    + by apply (no_block_at_app (c :: pre) (blk ++ rest)).
    + done.
Qed.

Lemma get_events_blocks evs blks rest :
  Forall2 capture_block evs blks →
  get_events (concat blks ++ rest) = evs ++ get_events rest.
Proof.
  induction 1 as [|ev blk evs blks Hblk _ IH]; simpl; [done|].
  by rewrite <-(assoc_L (++)), (get_events_block ev), IH.
Qed.

(** An event block without white space between its tags. *)
Lemma capture_block_compact ev :
  ev.1.1 ≠ [] → Forall (λ c, not_lt c = true) ev.1.1 →
  accepts_time ev.1.2 = true → accepts_time ev.2 = true →
  capture_block ev
    ("<event>" ++ [] ++ "<name>" ++ ev.1.1 ++ "</name>" ++ [] ++
     "<start>" ++ ev.1.2 ++ "</start>" ++ [] ++
     "<end>" ++ ev.2 ++ "</end>" ++ [] ++ "</event>").
Proof.
  intros Hne Hname Hst%accepts_time_shaped Hen%accepts_time_shaped.
  exists [], [], [], []. split_and!; [done|constructor..|done].
Qed.

(** ** What get_events cannot return *)

Lemma capture_block_length ev blk : capture_block ev blk → (65 ≤ length blk)%nat.
Proof.
  intros (ws1 & ws2 & ws3 & ws4 & -> & _ & _ & _ & _ & [Hne _] & Hst & Hen).
  destruct Hst as (? & ? & ? & ? & -> & _), Hen as (? & ? & ? & ? & -> & _).
  rewrite !length_app. destruct (ev.1.1); [done|]. simpl. lia.
Qed.

(** ** The validator on what the extractor accepts *)

Lemma capture_block_event_block ev blk : capture_block ev blk → event_block blk.
Proof.
  intros (ws1 & ws2 & ws3 & ws4 & -> & _ & _ & _ & _ & [Hne _] & Hst & Hen).
  by exists ws1, ev.1.1, ws2, ev.1.2, ws3, ev.2, ws4.
Qed.

(** ** The score as a function of the extracted events *)

Lemma existing_events_all scheduled_events valid_events :
  NoDup scheduled_events → (∀ ev, ev ∈ scheduled_events → ev ∈ valid_events) →
  elements (existing_events_of scheduled_events valid_events) ≡ₚ scheduled_events.
Proof.
  intros Hnd Hall. unfold existing_events_of. rewrite filter_all by done.
  by apply elements_list_to_set.
Qed.

Lemma surviving_events_all l :
  (∀ j k a b, j ≠ k → l !! j = Some a → l !! k = Some b → separated a b) →
  surviving_events l = l.
Proof.
  intros Hsep. unfold surviving_events. apply filter_all. intros ev _.
  rewrite overlapping_events_alt. intros (j & k & other & Hjk & Hj & Hk & Ht).
  apply (Hsep j k ev other Hjk Hj), overlap_test_false in Hk. congruence.
Qed.

Lemma surviving_events_none l :
  (∀ j a, l !! j = Some a → ∃ k b, j ≠ k ∧ l !! k = Some b ∧ ¬ separated a b) →
  surviving_events l = [].
Proof.
  intros Hmeet. destruct (surviving_events l) as [|ev l'] eqn:E; [done|].
  assert (ev ∈ surviving_events l) as [Hev Hsep]%elem_of_surviving_events
    by (rewrite E; left).
  apply list_elem_of_lookup in Hev as [j Hj].
  destruct (Hmeet j ev Hj) as (k & b & Hjk & Hk & []). by apply (Hsep j k).
Qed.

Lemma score_reward_one_Err content valid_events priorities opt_score e :
  score_reward_one content valid_events priorities opt_score = Err e ↔
  e = ZeroDivisionError ∧ opt_score = 0 ∧ ¬ degenerate (get_events content) valid_events.
Proof.
  destruct (decide (degenerate (get_events content) valid_events)) as [Hdeg|Hdeg].
  - rewrite score_reward_one_degenerate by done. split; [done|]. by intros (_ & _ & []).
  - rewrite score_reward_one_scored by done. unfold true_div. case_decide; simpl.
    + split; [by intros [= <-]|]. by intros (-> & _).
    + split; [done|]. by intros (_ & ? & _).
Qed.

(** The loop stops at the first item that raises. *)
Lemma traverse_Err_inv {A B} (f : A → result B) l e :
  traverse f l = Err e → ∃ i x, l !! i = Some x ∧ f x = Err e.
Proof.
  induction l as [|x l IH]; simpl; [done|].
  destruct (f x) as [z|e'] eqn:Hx; simpl.
  - destruct (traverse f l) as [zs|e'] eqn:Hl; simpl; [done|].
    intros [= ->]. destruct (IH eq_refl) as (i & y & Hi & Hy). by exists (S i), y.
  - intros [= ->]. by exists 0%nat, x.
Qed.

Lemma traverse_Err_any {A B} (f : A → result B) l e i x :
  (∀ y e', f y = Err e' → e' = e) →
  l !! i = Some x → f x = Err e → traverse f l = Err e.
Proof.
  intros Honly. revert i. induction l as [|y l IH]; intros i Hi Hx; [done|]. simpl.
  destruct (f y) as [z|e'] eqn:Hy; simpl.
  - destruct i as [|i]; simpl in Hi; [congruence|]. by rewrite (IH i).
  - f_equal. by eapply Honly.
Qed.

Lemma StronglySorted_lt_NoDup (l : list Z) : StronglySorted Z.lt l → NoDup l.
Proof.
  induction 1 as [|x l _ IH Hx]; constructor; [|done].
  intros Hin. rewrite Forall_forall in Hx. specialize (Hx x Hin). lia.
Qed.

Lemma traverse_Ok_iff {A B} (f : A → result B) l l' :
  traverse f l = Ok l' ↔ Forall2 (λ x y, f x = Ok y) l l'.
Proof.
  split; [apply traverse_Ok_inv|].
  induction 1 as [|x y l l' Hx _ IH]; simpl; [done|]. by rewrite Hx, IH.
Qed.

Lemma Qc_ltb_lt x y : Qc_ltb x y = true ↔ (x < y)%Qc.
Proof.
  unfold Qc_ltb, Qclt, Qccompare. rewrite Qlt_alt.
  destruct (Qcompare x y); split; done.
Qed.

Lemma wants_log_spec scores w :
  wants_log scores w = true ↔
  (∃ r, r ∈ scores ∧ (0 < r)%Qc) ∧ (random_random w < log_rate)%Qc.
Proof.
  unfold wants_log. rewrite andb_true_iff, Qc_ltb_lt, existsb_exists.
  split; intros [(r & Hr & Hpos) Hdraw]; (split; [|done]); exists r.
  - by rewrite list_elem_of_In, <-Qc_ltb_lt.
  - by rewrite <-list_elem_of_In, Qc_ltb_lt.
Qed.

Lemma batch_items_lookup responses events priority_events optimal_score i c v p o :
  batch_items responses events priority_events optimal_score !! i = Some (c, v, p, o) ↔
  responses !! i = Some c ∧ events !! i = Some v ∧
  priority_events !! i = Some p ∧ optimal_score !! i = Some o.
Proof.
  unfold batch_items. split.
  - intros Hi.
    apply lookup_zip_with_Some in Hi as (x3 & o' & Heq & Hi & Ho).
    apply lookup_zip_with_Some in Hi as (x2 & p' & -> & Hi & Hp).
    apply lookup_zip_with_Some in Hi as (c' & v' & -> & Hc & Hv).
    by simplify_eq.
  - intros (Hc & Hv & Hp & Ho).
    apply lookup_zip_with_Some. eexists (_, _, _), _. split_and!; [done| |done].
    apply lookup_zip_with_Some. eexists (_, _), _. split_and!; [done| |done].
    apply lookup_zip_with_Some. by eexists _, _.
Qed.

(** * Session identifiers *)

Lemma isValidSessionId_shape sessionId :
  isValidSessionId sessionId = true ↔
  ∃ ds suffix, sessionId = "session_" ++ ds ++ "_"%char :: suffix ∧
    ds ≠ [] ∧ Forall (λ c, is_digit c = true) ds ∧
    suffix ≠ [] ∧ Forall (λ c, lower_alnum c = true) suffix.
Proof.
  unfold isValidSessionId, session_id_pattern.
  rewrite bool_decide_eq_true, re_fullmatch_lang. split.
  - intros H. apply lang_lit_seq in H as (s' & -> & H).
    destruct H as (ds & rest & -> & [Hne Hds]%lang_plus_cls & H).
    apply lang_lit_seq in H as (suffix & -> & [Hne' Hsuf]%lang_plus_cls).
    by exists ds, suffix.
  - intros (ds & suffix & -> & Hne & Hds & Hne' & Hsuf).
    apply lang_lit_seq. eexists. split; [done|].
    exists ds, ("_"%char :: suffix). split_and!; [done|by apply lang_plus_cls|].
    apply (lang_lit_seq "_"). exists suffix. split; [done|]. by apply lang_plus_cls.
Qed.

Lemma digits_sep_inj ds ds' x x' :
  Forall (λ c, is_digit c = true) ds → Forall (λ c, is_digit c = true) ds' →
  ds ++ "_"%char :: x = ds' ++ "_"%char :: x' → ds = ds' ∧ x = x'.
Proof.
  intros Hds. revert ds'. induction Hds as [|c ds Hc _ IH]; intros ds' Hds' E.
  - destruct Hds' as [|c' ds' Hc' _]; simpl in E; [by injection E as ->|].
    injection E as <- _. done.
  - destruct Hds' as [|c' ds' Hc' Hds']; simpl in E.
    + injection E as -> _. done.
    + injection E as -> E. by destruct (IH ds' Hds' E) as [-> ->].
Qed.

(** ** The fields of a response, between its [<] *)









(** * The claims *)

(** C1 (as the code has it).  The test of the elimination loop is
    [start_j <= end_k and end_j >= start_k], so two events that meet at an
    endpoint pass it: A(10:00-11:00) and B(11:00-12:00) do not conflict, yet
    both are put in the set of overlapping events and dropped, and a
    completion that schedules exactly these two scores 0. *)
Theorem C1_touching_events_are_eliminated :
  ¬ conflict ("A" : text, 600, 660) ("B" : text, 660, 720) ∧
  overlap_test ("A" : text, 600, 660) ("B" : text, 660, 720) = true ∧
  surviving_events [("A" : text, 600, 660); ("B" : text, 660, 720)] = [] ∧
  get_events completion_A_B =
    [("A" : text, "10:00" : text, "11:00" : text); ("B" : text, "11:00" : text, "12:00" : text)] ∧
  score_reward_one completion_A_B touching_events [] 180 = Ok 0%Qc.
Proof.
  split_and!.
  - unfold conflict, ev_start, ev_end. simpl. lia.
  - done.
  - by vm_compute.
  - by vm_compute.
  - by vm_compute.
Qed.

(** C2.  A completion with an extracted event that is not among the
    reference events, or with fewer than two distinct extracted events among
    them, scores 0, whatever else it holds. *)
Theorem C2_zero_on_unmatched_or_too_few content valid_events priorities opt_score :
  (∃ ev, ev ∈ get_events content ∧ ev ∉ valid_events) ∨
  (size (existing_events_of (get_events content) valid_events) < 2)%nat →
  score_reward_one content valid_events priorities opt_score = Ok 0%Qc.
Proof.
  intros [(ev & Hev & Hnot)|Hfew]; apply score_reward_one_degenerate; [left|by right].
  unfold existing_events_of.
  eapply Nat.le_lt_trans; [apply size_list_to_set_le|].
  by eapply length_filter_lt.
Qed.

Lemma C2_zero_on_unmatched_witness :
  score_reward_one completion_invented fixture_events fixture_priorities fixture_optimal_score
    = Ok 0%Qc.
Proof.
  apply C2_zero_on_unmatched_or_too_few. left.
  exists ("Afterparty" : text, "18:00" : text, "19:00" : text). split.
  - apply (bool_decide_unpack _). by vm_compute.
  - apply (bool_decide_unpack _). by vm_compute.
Defined.

(** C3.  On the fixture, a completion whose extracted events are B then C
    has weighted score 2*30 + 90 = 150 and the reward (150/285)*70; the
    ratio 150/285 lies between 0.526 and 0.527. *)
Theorem C3_fixture_B_then_C content :
  get_events content = [event_B; event_C] →
  weight fixture_priorities (minutes_of event_B) = 2 * 30 ∧
  weight fixture_priorities (minutes_of event_C) = 90 ∧
  weighted_score fixture_priorities
    (surviving_events
       (minutes_of <$> elements (existing_events_of (get_events content) fixture_events)))
    = 150 ∧
  score_reward_one content fixture_events fixture_priorities fixture_optimal_score
    = Ok (Qc_of_Z 150 / Qc_of_Z 285 * Qc_of_Z 70)%Qc ∧
  (Q2Qc (526 # 1000) ≤ Qc_of_Z 150 / Qc_of_Z 285 < Q2Qc (527 # 1000))%Qc.
Proof.
  intros H. split_and!.
  - by vm_compute.
  - by vm_compute.
  - rewrite H. by vm_compute.
  - unfold score_reward_one. rewrite H. by vm_compute.
  - by vm_compute.
  - by vm_compute.
Qed.

Lemma C3_fixture_B_then_C_witness :
  get_events completion_B_C = [event_B; event_C] ∧
  score_reward_one completion_B_C fixture_events fixture_priorities fixture_optimal_score
    = Ok (Qc_of_Z 150 / Qc_of_Z 285 * Qc_of_Z 70)%Qc.
Proof.
  assert (get_events completion_B_C = [event_B; event_C]) as H by by vm_compute.
  split; [done|]. by apply (C3_fixture_B_then_C completion_B_C H).
Defined.






(** C6.  score_reward_one returns a value for every completion (the
    optimal score being different from 0), whatever its format.  get_events
    returns exactly what the scan from the left yields that passes over every
    character at which no event block starts and takes the triple of each
    event block, and the triples are well formed, so their times convert.
    The value returned is computed from these triples: 0 when the guard
    fires, and otherwise the weighted score of the events that the
    elimination leaves, over the optimal score, times 70. *)
Theorem C6_scorer_total content valid_events priorities opt_score :
  opt_score ≠ 0 →
  (∀ evs, extracts content evs ↔ evs = get_events content) ∧
  Forall well_formed_event (get_events content) ∧
  (∀ evs, extracts content evs →
     score_reward_one content valid_events priorities opt_score =
       Ok (if decide (degenerate evs valid_events) then 0%Qc
           else (Qc_of_Z (weighted_score priorities
                   (surviving_events
                      (minutes_of <$> elements (existing_events_of evs valid_events))))
                 / Qc_of_Z opt_score * Qc_of_Z 70)%Qc)) ∧
  (∃ r, sorted_events_reward_one content = Ok r) ∧
  (∀ content', get_events content' = get_events content →
     score_reward_one content' valid_events priorities opt_score =
     score_reward_one content valid_events priorities opt_score).
Proof.
  intros Hopt. split_and!.
  - apply extracts_get_events.
  - apply get_events_well_formed.
  - intros evs ->%extracts_get_events. case_decide as Hdeg.
    + by apply score_reward_one_degenerate.
    + rewrite score_reward_one_scored by done.
      unfold true_div. by rewrite decide_False by done.
  - apply sorted_events_reward_one_total.
  - intros content' E. unfold score_reward_one. by rewrite E.
Qed.

Lemma C6_scorer_total_witness :
  format_valid completion_unclosed = false ∧
  get_events completion_unclosed = [event_B; event_C] ∧
  get_events completion_malformed = [event_B] ∧
  score_reward_one completion_unclosed fixture_events fixture_priorities fixture_optimal_score
    = Ok (Q2Qc (700 # 19)).
Proof.
  split_and!; [by vm_compute..|].
  destruct (C6_scorer_total completion_unclosed fixture_events fixture_priorities
              fixture_optimal_score) as (_ & _ & Hscore & _); [done|].
  rewrite (Hscore [event_B; event_C]).
  - by vm_compute.
  - apply extracts_get_events. by vm_compute.
Defined.

(** C7.  sorted_events_reward never fails; it is positive exactly when
    two or more events are extracted and their start times, in minutes and in
    the order of extraction, increase strictly; with fewer than two events it
    is 0. *)
Theorem C7_sorted_events_reward response :
  ∃ r, sorted_events_reward_one response = Ok r ∧
    ((0 < r)%Qc ↔
       (2 ≤ length (get_events response))%nat ∧
       StronglySorted Z.lt (ev_start <$> (minutes_of <$> get_events response))) ∧
    ((length (get_events response) < 2)%nat → r = 0%Qc).
Proof.
  unfold sorted_events_reward_one. case_decide as Hlen.
  - exists 0%Qc. split_and!; [done| |done]. split; [done|lia].
  - rewrite traverse_to_minutes by apply get_events_well_formed. simpl.
    fold (adjacent_increasing (minutes_of <$> get_events response)).
    destruct (adjacent_increasing _) eqn:E.
    + exists (Qc_of_Z 20). split_and!; [done| |lia].
      split; [|done]. intros _. split; [lia|]. by apply adjacent_increasing_sorted.
    + exists 0%Qc. split_and!; [done| |done].
      split; [done|]. intros [_ H%adjacent_increasing_sorted]. congruence.
Qed.

(** C8 (as the code has it).  With the reference events X(08:00-09:00),
    A(10:00-11:00), B(11:00-12:00): B is a reference event, is not in the
    completion X, A and conflicts with neither X nor A; the completion X, A
    has weighted score 120, and with B added the loop drops A and B and the
    weighted score is 60. *)
Theorem C8_adding_touching_event_lowers_score :
  let X : event := ("X" : text, "08:00" : text, "09:00" : text) in
  let A : event := ("A" : text, "10:00" : text, "11:00" : text) in
  let B : event := ("B" : text, "11:00" : text, "12:00" : text) in
  get_events completion_X_A = [X; A] ∧
  get_events completion_X_A_B = [X; A; B] ∧
  B ∈ touching_events ∧ (B ∉ get_events completion_X_A) ∧
  Forall (λ ev, ¬ conflict (minutes_of B) (minutes_of ev)) (get_events completion_X_A) ∧
  score_reward_one completion_X_A touching_events [] 180
    = Ok (Qc_of_Z 120 / Qc_of_Z 180 * Qc_of_Z 70)%Qc ∧
  score_reward_one completion_X_A_B touching_events [] 180
    = Ok (Qc_of_Z 60 / Qc_of_Z 180 * Qc_of_Z 70)%Qc ∧
  ((Qc_of_Z 60 / Qc_of_Z 180) * Qc_of_Z 70 < (Qc_of_Z 120 / Qc_of_Z 180) * Qc_of_Z 70)%Qc.
Proof.
  split_and!; try by vm_compute.
  - apply (bool_decide_unpack _). by vm_compute.
  - apply (bool_decide_unpack _). by vm_compute.
  - apply (bool_decide_unpack _). by vm_compute.
Qed.

(** C9.  A completion whose extracted events are all among the reference
    events but are not pairwise distinct scores 0: the set of existing events
    is smaller than the list of scheduled events. *)
Theorem C9_zero_on_repeated_event content valid_events priorities opt_score :
  (∀ ev, ev ∈ get_events content → ev ∈ valid_events) →
  ¬ NoDup (get_events content) →
  (size (existing_events_of (get_events content) valid_events)
     < length (get_events content))%nat ∧
  score_reward_one content valid_events priorities opt_score = Ok 0%Qc.
Proof.
  intros Hall Hdup.
  assert (size (existing_events_of (get_events content) valid_events)
            < length (get_events content))%nat as H.
  { unfold existing_events_of. rewrite filter_all by done. by apply size_list_to_set_lt. }
  split; [done|]. apply score_reward_one_degenerate. by left.
Qed.

Lemma C9_zero_on_repeated_event_witness :
  (2 ≤ size (existing_events_of (get_events completion_repeated) fixture_events))%nat ∧
  score_reward_one completion_repeated fixture_events fixture_priorities fixture_optimal_score
    = Ok 0%Qc.
Proof.
  split; [by vm_compute|].
  apply (C9_zero_on_repeated_event completion_repeated).
  - apply Forall_forall. apply (bool_decide_unpack _). by vm_compute.
  - apply (bool_decide_unpack _). by vm_compute.
Defined.

(** C10.  When the reference events have positive durations and the
    supplied optimal score is the largest total weight of a conflict-free
    selection of them, the events that the elimination loop leaves are a
    conflict-free selection of the reference events, their weighted score is
    at most the optimal score, and the reward lies between 0 and 70. *)
Theorem C10_reward_between_0_and_70 content valid_events priorities opt_score ref :
  traverse to_minutes valid_events = Ok ref →
  Forall (λ ev, ev_start ev < ev_end ev) ref →
  is_optimal_score ref priorities opt_score →
  let survivors :=
    surviving_events
      (minutes_of <$> elements (existing_events_of (get_events content) valid_events)) in
  survivors ⊆+ ref ∧ conflict_free survivors ∧
  0 ≤ weighted_score priorities survivors ≤ opt_score ∧
  ∃ r, score_reward_one content valid_events priorities opt_score = Ok r ∧
       (0 ≤ r ≤ Qc_of_Z 70)%Qc.
Proof.
  intros ->%traverse_to_minutes_inv Hpos [_ Hopt] survivors.
  set (existing := existing_events_of (get_events content) valid_events) in *.
  assert (minutes_of <$> elements existing ⊆+ minutes_of <$> valid_events) as Hsub.
  { apply fmap_submseteq, NoDup_submseteq; [apply NoDup_elements|].
    by intros ev [_ ?]%elem_of_existing_events. }
  assert (survivors ⊆+ minutes_of <$> valid_events) as Hsurv.
  { etrans; [apply surviving_events_submseteq|done]. }
  assert (conflict_free survivors) as Hcf by apply surviving_events_conflict_free.
  assert (0 ≤ weighted_score priorities survivors) as Hnonneg
    by by apply surviving_score_nonneg.
  split_and!; [done|done|done|by apply Hopt|].
  destruct (decide (degenerate (get_events content) valid_events)) as [Hdeg|Hdeg].
  - exists 0%Qc. split; [by apply score_reward_one_degenerate|].
    split; [done|]. by apply Qc_of_Z_nonneg.
  - assert (0 < opt_score) as Hoptpos.
    { destruct (elements existing) as [|ev0 els] eqn:Els.
      { unfold degenerate, size, set_size in Hdeg. simpl in Hdeg. fold existing in Hdeg.
        rewrite Els in Hdeg. simpl in Hdeg. lia. }
      assert (minutes_of ev0 ∈ minutes_of <$> valid_events) as Hin.
      { eapply elem_of_submseteq; last exact Hsub. rewrite ?Els, fmap_cons. left. }
      eapply Z.lt_le_trans; [|apply (Hopt [minutes_of ev0])].
      - rewrite weighted_score_cons. unfold weighted_score at 1. simpl.
        rewrite Forall_forall in Hpos. pose proof (weight_nonneg priorities _ (Hpos _ Hin)).
        unfold sum. simpl. lia.
      - by apply singleton_submseteq_l.
      - simpl. split; [constructor|done]. }
    rewrite score_reward_one_scored by done. fold existing. fold survivors.
    unfold true_div. rewrite decide_False by lia. simpl.
    eexists. split; [done|]. apply ratio_bounds; [|done]. split; [done|by apply Hopt].
Qed.

Lemma C10_reward_between_0_and_70_witness :
  ∃ r, score_reward_one completion_B_C fixture_events fixture_priorities
         fixture_optimal_score = Ok r ∧ (0 ≤ r ≤ Qc_of_Z 70)%Qc.
Proof.
  assert (traverse to_minutes fixture_events = Ok (minutes_of <$> fixture_events)) as H1
    by by vm_compute.
  assert (Forall (λ ev, ev_start ev < ev_end ev) (minutes_of <$> fixture_events)) as H2
    by (apply (bool_decide_unpack _); by vm_compute).
  assert (is_optimal_score (minutes_of <$> fixture_events) fixture_priorities
            fixture_optimal_score) as H3.
  { replace fixture_optimal_score
      with (best_score (minutes_of <$> fixture_events) fixture_priorities) by by vm_compute.
    apply best_score_optimal. }
  apply (C10_reward_between_0_and_70 completion_B_C _ _ _ _ H1 H2 H3).
Defined.

(** * Further properties of the reward code *)

(** X1.  When the hours, minutes // 60, have at most 4300 digits,
    minutes_to_time prints a text and time_to_minutes reads the minutes back
    from it, negative numbers and numbers from 1440 on included; when the
    hours have more digits, minutes_to_time raises ValueError. *)
Theorem X1_minutes_round_trip (minutes : Z) :
  (Z.abs (minutes / 60) < 10 ^ int_max_str_digits →
   ∃ t, minutes_to_time minutes = Ok t ∧ time_to_minutes t = Ok minutes) ∧
  (10 ^ int_max_str_digits ≤ Z.abs (minutes / 60) →
   minutes_to_time minutes = Err ValueError).
Proof.
  rewrite minutes_to_time_spec. split.
  - intros Hlim. rewrite decide_True by done. exists (printed_time minutes).
    split; [done|]. by apply time_to_minutes_printed.
  - intros Hlim. rewrite decide_False by lia. done.
Qed.

Lemma X1_minutes_round_trip_witness :
  ∃ t, minutes_to_time (-5) = Ok t ∧ time_to_minutes t = Ok (-5).
Proof. apply (X1_minutes_round_trip (-5)). by vm_compute. Defined.

(** X2.  minutes_to_time prints a text that the time pattern accepts
    exactly for the minutes from 0 to 5999 (hours of two digits). *)
Theorem X2_minutes_to_time_accepted (minutes : Z) :
  (∃ t, minutes_to_time minutes = Ok t ∧ accepts_time t = true) ↔ 0 ≤ minutes < 6000.
Proof.
  rewrite minutes_to_time_spec. split.
  - intros (t & Ht & (a & b & c & d & E & Ha & Hb & Hc & Hd)%accepts_time_shaped).
    case_decide; [|done]. injection Ht as <-.
    destruct (printed_time_shaped_inv minutes a b c d) as [Hh Hm]; [done..|].
    pose proof (digit_value_range _ (is_digit_digits _ Ha)).
    pose proof (digit_value_range _ (is_digit_digits _ Hb)).
    pose proof (Z.div_mod minutes 60). pose proof (Z.mod_pos_bound minutes 60). lia.
  - intros Hm.
    assert (0 ≤ minutes / 60 < 100) as Hh.
    { split; [apply Z.div_pos; lia|]. apply Z.div_lt_upper_bound; lia. }
    rewrite decide_True by (pose proof limit_above_100; lia).
    exists (printed_time minutes). split; [done|]. apply accepts_time_shaped.
    unfold printed_time.
    destruct (zero_padded_two_digits (minutes / 60)) as (a & b & Ha & Hb & ->); [done|].
    destruct (zero_padded_two_digits (minutes mod 60)) as (c & d & Hc & Hd & ->).
    { pose proof (Z.mod_pos_bound minutes 60). lia. }
    exists a, b, c, d. by rewrite !digits_is_digit.
Qed.

(** X3.  An accepted time [t] converts to minutes that minutes_to_time
    prints as [t] again exactly when the last two digits of [t] are below 60;
    otherwise the printed time differs (00:66 comes back as 01:06). *)
Theorem X3_time_normal_form (t : text) :
  time_shaped t →
  ∃ n, time_to_minutes t = Ok n ∧ (minutes_to_time n = Ok t ↔ normal_time t).
Proof.
  intros (a & b & c & d & -> & Ha & Hb & Hc & Hd).
  rewrite time_to_minutes_digits by done. eexists. split; [done|].
  pose proof (is_digit_digits _ Ha) as Ha'. pose proof (is_digit_digits _ Hb) as Hb'.
  pose proof (is_digit_digits _ Hc) as Hc'. pose proof (is_digit_digits _ Hd) as Hd'.
  pose proof (digit_value_range _ Hc'). pose proof (digit_value_range _ Hd').
  set (h := 10 * digit_value a + digit_value b). set (m := 10 * digit_value c + digit_value d).
  rewrite minutes_to_time_spec. split.
  - case_decide; [|done]. intros [= E].
    apply printed_time_shaped_inv in E as [_ Hm]; [|done..].
    exists a, b, c, d. split_and!; [done..|].
    pose proof (Z.mod_pos_bound (h * 60 + m) 60). fold m in Hm |- *. lia.
  - intros (a' & b' & c' & d' & [= <- <- <- <-] & _ & _ & _ & _ & Hm). fold m in Hm.
    pose proof (digit_value_range _ Ha'). pose proof (digit_value_range _ Hb').
    assert ((h * 60 + m) / 60 = h) as Eh by (symmetry; apply Z.div_unique with m; lia).
    assert ((h * 60 + m) mod 60 = m) as Em by (symmetry; apply Z.mod_unique with h; lia).
    rewrite decide_True by (rewrite Eh; pose proof limit_above_100; lia).
    unfold printed_time. rewrite Eh, Em.
    unfold h, m. by rewrite !zero_padded_digits.
Qed.

Lemma X3_time_normal_form_witness :
  ∃ n, time_to_minutes "00:66" = Ok n ∧ (minutes_to_time n = Ok ("00:66" : text) ↔ normal_time "00:66").
Proof.
  apply (X3_time_normal_form "00:66").
  exists "0"%char, "0"%char, "6"%char, "6"%char. by vm_compute.
Defined.

(** X4.  time_to_minutes raises ValueError on every text in which the
    number of colons is not one. *)
Theorem X4_time_to_minutes_colons (time_str : text) :
  length (filter (λ c, c = ":"%char) time_str) ≠ 1%nat →
  time_to_minutes time_str = Err ValueError.
Proof.
  intros Hn. unfold time_to_minutes. pose proof (split_length ":"%char time_str) as Hl.
  destruct (split ":"%char time_str) as [|h [|m [|x l]]]; simpl in *; try done. lia.
Qed.

Lemma X4_time_to_minutes_colons_witness :
  time_to_minutes "12:30:00" = Err ValueError ∧ time_to_minutes "1230" = Err ValueError.
Proof.
  split.
  - apply (X4_time_to_minutes_colons "12:30:00"). by vm_compute.
  - apply (X4_time_to_minutes_colons "1230"). by vm_compute.
Defined.

(** X5.  In any text, event blocks that follow one another are extracted
    as they stand, whatever comes before and after them: get_events returns
    the events of the text before the blocks, the triples of the blocks in
    order, then the events of the text after them. *)
Theorem X5_get_events_blocks pre evs blks rest :
  Forall2 capture_block evs blks → blks ≠ [] →
  get_events (pre ++ concat blks ++ rest) = get_events pre ++ evs ++ get_events rest.
Proof.
  intros H Hne. destruct H as [|ev blk evs blks Hblk H]; [done|]. simpl.
  rewrite <-(assoc_L (++)), (get_events_around_block pre ev) by done.
  by rewrite (get_events_blocks evs).
Qed.

Lemma X5_get_events_blocks_witness :
  get_events
    ("<think>draft</think>" ++
     concat [ "<event>" ++ [] ++ "<name>" ++ event_B.1.1 ++ "</name>" ++ [] ++
              "<start>" ++ event_B.1.2 ++ "</start>" ++ [] ++
              "<end>" ++ event_B.2 ++ "</end>" ++ [] ++ "</event>" ] ++
     "</schedule>")
  = get_events "<think>draft</think>" ++ [event_B] ++ get_events "</schedule>".
Proof.
  apply (X5_get_events_blocks "<think>draft</think>" [event_B]); [|done].
  constructor; [|constructor]. apply capture_block_compact.
  - done.
  - apply (bool_decide_unpack _). by vm_compute.
  - by vm_compute.
  - by vm_compute.
Defined.

(** X6.  get_events never returns more events than fit in the text, an
    event block taking 65 characters or more; and it returns no event when the
    opening tag of an event does not occur. *)
Theorem X6_get_events_bound content :
  (65 * length (get_events content) ≤ length content)%nat ∧
  (¬ occurs "<event>" content → get_events content = []).
Proof.
  assert (extracts content (get_events content)) as H by by apply extracts_get_events.
  split.
  - induction H as [|c s evs _ _ IH|ev blk rest evs Hblk _ IH]; simpl; [lia|lia|].
    apply capture_block_length in Hblk. rewrite length_app. lia.
  - intros Hno. induction H as [|c s evs _ _ IH|ev blk rest evs Hblk _ IH]; [done| |].
    + apply IH. intros (a & b & ->). apply Hno. by exists (c :: a), b.
    + destruct Hno. apply capture_block_open in Hblk as (w & ->).
      exists [], (w ++ rest). by rewrite <-(assoc_L (++)).
Qed.

Lemma X6_get_events_bound_witness :
  get_events "<think>no schedule, only </event> and <name>x</name></think>" = [].
Proof.
  apply X6_get_events_bound. rewrite <-contains_spec. by vm_compute.
Defined.

(** X7.  A response made of a think block that is not empty and a
    schedule block with one or more event blocks as the extractor reads them
    gets the format reward 10, and get_events returns the triples of these
    blocks, in order, among its events. *)
Theorem X7_format_reward_on_extracted_blocks think a b evs blks c rest :
  think ≠ [] → blks ≠ [] → Forall2 capture_block evs blks →
  let response :=
    "<think>" ++ think ++ "</think>" ++ a ++ "<schedule>" ++ b ++
    concat blks ++ c ++ "</schedule>" ++ rest in
  format_reward_one response = Qc_of_Z 10 ∧ evs `sublist_of` get_events response.
Proof.
  intros Hthink Hne Hblks response. split.
  - unfold format_reward_one.
    assert (format_valid response = true) as ->; [|done].
    apply format_valid_well_formed. exists think, a, b, blks, c, rest.
    split_and!; [done..|].
    clear Hne. induction Hblks; constructor; [by eapply capture_block_event_block|done].
  - unfold response. destruct Hblks as [|ev blk evs blks Hblk Hblks]; [done|].
    cbn [concat].
    replace ("<think>" ++ think ++ "</think>" ++ a ++ "<schedule>" ++ b ++
             (blk ++ concat blks) ++ c ++ "</schedule>" ++ rest)
      with (("<think>" ++ think ++ "</think>" ++ a ++ "<schedule>" ++ b) ++ blk ++
            concat blks ++ c ++ "</schedule>" ++ rest)
      by by rewrite <-!(assoc_L (++)).
    rewrite (get_events_around_block _ ev) by done.
    rewrite (get_events_blocks evs) by done.
    apply sublist_inserts_l, sublist_skip, sublist_inserts_r. done.
Qed.

Lemma X7_format_reward_on_extracted_blocks_witness :
  format_reward_one
    ("<think>" ++ "t" ++ "</think>" ++ [] ++ "<schedule>" ++ [] ++
     concat [ "<event>" ++ [] ++ "<name>" ++ event_B.1.1 ++ "</name>" ++ [] ++
              "<start>" ++ event_B.1.2 ++ "</start>" ++ [] ++
              "<end>" ++ event_B.2 ++ "</end>" ++ [] ++ "</event>" ] ++
     [] ++ "</schedule>" ++ []) = Qc_of_Z 10.
Proof.
  apply (X7_format_reward_on_extracted_blocks "t" [] [] [event_B] _ [] []); [done|done|].
  constructor; [|constructor]. apply capture_block_compact.
  - done.
  - apply (bool_decide_unpack _). by vm_compute.
  - by vm_compute.
  - by vm_compute.
Defined.

(** X8.  The pattern of format_reward is anchored at the start of the
    response and not at its end: a response that does not start with the
    opening think tag gets 0, and a response that gets 10 keeps it whatever is
    appended. *)
Theorem X8_format_reward_anchoring response :
  (strip_prefix "<think>" response = None → format_reward_one response = 0%Qc) ∧
  (∀ tail, format_reward_one response = Qc_of_Z 10 →
           format_reward_one (response ++ tail) = Qc_of_Z 10).
Proof.
  assert (∀ r, format_reward_one r = Qc_of_Z 10 ↔ well_formed r) as H10.
  { intros r. rewrite <-format_valid_well_formed. unfold format_reward_one.
    destruct (format_valid r); split; done. }
  split.
  - intros Hno. unfold format_reward_one. destruct (format_valid response) eqn:E; [|done].
    apply format_valid_well_formed in E as (think & a & b & blocks & c & rest & -> & _).
    by rewrite strip_prefix_app in Hno.
  - intros tail (think & a & b & blocks & c & rest & -> & ?)%H10. apply H10.
    exists think, a, b, blocks, c, (rest ++ tail). split; [|done].
    by rewrite <-!(assoc_L (++)).
Qed.

Lemma X8_format_reward_anchoring_witness :
  format_reward_one (" " ++ completion_B_C) = 0%Qc ∧
  format_reward_one (completion_B_C ++ " and more") = Qc_of_Z 10.
Proof.
  split.
  - apply (X8_format_reward_anchoring (" " ++ completion_B_C)). by vm_compute.
  - apply (X8_format_reward_anchoring completion_B_C). by vm_compute.
Defined.

(** X9.  The score does not depend on the order in which the events are
    written in the completion, nor on the order or the repetitions of the
    reference events and of the priority names. *)
Theorem X9_score_order_independent c1 c2 v1 v2 p1 p2 opt_score :
  get_events c1 ≡ₚ get_events c2 →
  (∀ ev, ev ∈ v1 ↔ ev ∈ v2) → (∀ name, name ∈ p1 ↔ name ∈ p2) →
  score_reward_one c1 v1 p1 opt_score = score_reward_one c2 v2 p2 opt_score.
Proof.
  intros Hevs Hv Hp.
  assert (existing_events_of (get_events c1) v1 = existing_events_of (get_events c2) v2) as Hset.
  { apply set_eq. intros ev. unfold existing_events_of.
    rewrite !elem_of_list_to_set, !list_elem_of_filter, Hv. by rewrite Hevs. }
  assert (∀ l, weighted_score p1 l = weighted_score p2 l) as Hw.
  { intros l. unfold weighted_score. f_equal. apply list_fmap_ext. intros _ ev _.
    unfold weight. by rewrite (decide_ext _ _ _ _ (Hp (ev_name ev))). }
  unfold score_reward_one. rewrite Hset, (Permutation_length Hevs).
  case_decide; [done|].
  destruct (traverse to_minutes _) as [l|]; [|done]. simpl. by rewrite Hw.
Qed.

Lemma X9_score_order_independent_witness :
  score_reward_one completion_X_A_B touching_events [] 180 =
  score_reward_one completion_X_A_B (reverse touching_events ++ touching_events) [] 180.
Proof.
  apply X9_score_order_independent; [done| |done].
  intros ev. rewrite elem_of_app, elem_of_reverse. tauto.
Defined.

(** X10.  When the extracted events are distinct reference events, two or
    more, and any two of them are apart (one ends before the other starts),
    no event is eliminated: the reward is the sum of the weights of all
    extracted events over the optimal score, times 70; it is 70 when this sum
    is the optimal score. *)
Theorem X10_score_of_separated_schedule content valid_events priorities opt_score :
  NoDup (get_events content) →
  (∀ ev, ev ∈ get_events content → ev ∈ valid_events) →
  (2 ≤ length (get_events content))%nat →
  (∀ j k a b, j ≠ k → get_events content !! j = Some a → get_events content !! k = Some b →
     separated (minutes_of a) (minutes_of b)) →
  opt_score ≠ 0 →
  score_reward_one content valid_events priorities opt_score =
    Ok (Qc_of_Z (weighted_score priorities (minutes_of <$> get_events content))
        / Qc_of_Z opt_score * Qc_of_Z 70)%Qc ∧
  (weighted_score priorities (minutes_of <$> get_events content) = opt_score →
   score_reward_one content valid_events priorities opt_score = Ok (Qc_of_Z 70)).
Proof.
  intros Hnd Hall Hlen Hsep Hopt.
  assert (score_reward_one content valid_events priorities opt_score =
    Ok (Qc_of_Z (weighted_score priorities (minutes_of <$> get_events content))
        / Qc_of_Z opt_score * Qc_of_Z 70)%Qc) as E.
  { rewrite score_reward_one_scored by by apply not_degenerate.
    rewrite (surviving_score_perm priorities _ (minutes_of <$> get_events content))
      by by apply fmap_Permutation, existing_events_all.
    rewrite surviving_events_all.
    - unfold true_div. by rewrite decide_False.
    - intros j k a b Hjk Hj Hk. rewrite list_lookup_fmap in Hj, Hk.
      destruct (get_events content !! j) as [a'|] eqn:Ha; [|done].
      destruct (get_events content !! k) as [b'|] eqn:Hb; [|done].
      injection Hj as <-. injection Hk as <-. by apply (Hsep j k). }
  split; [done|]. intros Hfull. rewrite E, Hfull. do 2 f_equal.
  rewrite <-(Qcmult_1_l (Qc_of_Z 70)) at 2. f_equal.
  apply Qcmult_inv_r. intros H0. apply Hopt.
  apply (f_equal this) in H0. simpl in H0. injection H0 as H0. done.
Qed.

Lemma X10_score_of_separated_schedule_witness :
  score_reward_one completion_B_C fixture_events fixture_priorities 150 = Ok (Qc_of_Z 70).
Proof.
  assert (get_events completion_B_C = [event_B; event_C]) as E by by vm_compute.
  apply X10_score_of_separated_schedule; rewrite ?E.
  - apply (bool_decide_unpack _). by vm_compute.
  - apply Forall_forall, (bool_decide_unpack _). by vm_compute.
  - simpl. lia.
  - intros [|[|j]] [|[|k]] a b Hjk Hj Hk; simplify_eq/=.
    + left. by vm_compute.
    + right. by vm_compute.
  - done.
  - by vm_compute.
Defined.

(** X11.  score_reward raises for a completion exactly when the optimal
    score is 0 and the extracted events are distinct reference events, two or
    more; the error is then the division by zero and no other error occurs.
    With fewer than two events, a repeated event or an event that is no
    reference event the reward is 0 also when the optimal score is 0. *)
Theorem X11_score_reward_error content valid_events priorities opt_score e :
  score_reward_one content valid_events priorities opt_score = Err e ↔
  e = ZeroDivisionError ∧ opt_score = 0 ∧
  NoDup (get_events content) ∧
  (∀ ev, ev ∈ get_events content → ev ∈ valid_events) ∧
  (2 ≤ length (get_events content))%nat.
Proof.
  rewrite <-not_degenerate.
  destruct (decide (degenerate (get_events content) valid_events)) as [Hdeg|Hdeg].
  - unfold score_reward_one. rewrite decide_True by done.
    split; [done|]. by intros (_ & _ & []).
  - unfold score_reward_one. rewrite decide_False by done.
    rewrite traverse_to_minutes by apply existing_events_well_formed. simpl.
    unfold true_div. case_decide; simpl.
    + split; [by intros [= <-]|]. by intros (-> & _).
    + split; [done|]. by intros (_ & ? & _).
Qed.

(** X12.  When every extracted event overlaps or touches another one,
    all events are eliminated and the reward is 0, although the events are
    distinct reference events. *)
Theorem X12_zero_when_every_event_meets_another content valid_events priorities opt_score :
  NoDup (get_events content) →
  (∀ ev, ev ∈ get_events content → ev ∈ valid_events) →
  (∀ a, a ∈ get_events content →
     ∃ b, b ∈ get_events content ∧ a ≠ b ∧ ¬ separated (minutes_of a) (minutes_of b)) →
  opt_score ≠ 0 →
  score_reward_one content valid_events priorities opt_score = Ok 0%Qc.
Proof.
  intros Hnd Hall Hmeet Hopt.
  destruct (decide (degenerate (get_events content) valid_events)) as [Hdeg|Hdeg];
    [by apply score_reward_one_degenerate|].
  rewrite score_reward_one_scored by done.
  pose proof (existing_events_all _ _ Hnd Hall) as Hperm.
  rewrite surviving_events_none.
  - unfold true_div. rewrite decide_False by done. simpl. f_equal.
  - intros j m Hj. rewrite list_lookup_fmap in Hj.
    destruct (elements _ !! j) as [a|] eqn:Ha; [|done]. injection Hj as <-.
    assert (a ∈ get_events content) as Hin
      by (rewrite <-Hperm; by eapply list_elem_of_lookup_2).
    destruct (Hmeet a Hin) as (b & Hb & Hab & Hsep).
    rewrite <-Hperm in Hb. apply list_elem_of_lookup in Hb as [k Hk].
    exists k, (minutes_of b). split_and!; [congruence| |done].
    by rewrite list_lookup_fmap, Hk.
Qed.

Lemma X12_zero_when_every_event_meets_another_witness :
  score_reward_one completion_A_B touching_events [] 180 = Ok 0%Qc.
Proof.
  assert (get_events completion_A_B =
    [("A" : text, "10:00" : text, "11:00" : text); ("B" : text, "11:00" : text, "12:00" : text)])
    as E by by vm_compute.
  apply X12_zero_when_every_event_meets_another; rewrite ?E.
  - apply (bool_decide_unpack _). by vm_compute.
  - apply Forall_forall, (bool_decide_unpack _). by vm_compute.
  - intros a [->|[->|[]%elem_of_nil]%elem_of_cons]%elem_of_cons.
    + exists ("B" : text, "11:00" : text, "12:00" : text).
      split_and!; [by right; left|done|]. unfold separated. vm_compute. by intros [|].
    + exists ("A" : text, "10:00" : text, "11:00" : text).
      split_and!; [by left|done|]. unfold separated. vm_compute. by intros [|].
  - done.
Defined.

(** X13.  A completion that gets the reward 20 of sorted_events_reward
    has no repeated event, so that score_reward gives it 0 through its guard
    only when one of its events is no reference event. *)
Theorem X13_sorted_reward_no_repeats content valid_events :
  sorted_events_reward_one content = Ok (Qc_of_Z 20) →
  NoDup (get_events content) ∧
  (degenerate (get_events content) valid_events ↔
   ∃ ev, ev ∈ get_events content ∧ ev ∉ valid_events).
Proof.
  unfold sorted_events_reward_one. case_decide as Hlen; [done|].
  rewrite traverse_to_minutes by apply get_events_well_formed. simpl.
  fold (adjacent_increasing (minutes_of <$> get_events content)).
  destruct (adjacent_increasing _) eqn:Hinc; [|done]. intros _.
  apply adjacent_increasing_sorted in Hinc.
  assert (NoDup (get_events content)) as Hnd.
  { eapply NoDup_fmap_1, NoDup_fmap_1. by apply StronglySorted_lt_NoDup. }
  split; [done|]. split.
  - intros Hdeg. destruct (decide (Forall (λ ev, ev ∈ valid_events) (get_events content)))
      as [Hall|Hex].
    + rewrite Forall_forall in Hall. exfalso. revert Hdeg. apply not_degenerate.
      split_and!; [done..|lia].
    + apply not_Forall_Exists in Hex; [|apply _].
      apply Exists_exists in Hex as (ev & ? & ?). by exists ev.
  - intros (ev & Hev & Hnot).
    destruct (decide (degenerate (get_events content) valid_events)) as [|Hdeg]; [done|].
    apply not_degenerate in Hdeg as (_ & Hall & _). destruct Hnot. by apply Hall.
Qed.

Lemma X13_sorted_reward_no_repeats_witness :
  NoDup (get_events completion_B_C) ∧ ¬ degenerate (get_events completion_B_C) fixture_events.
Proof.
  destruct (X13_sorted_reward_no_repeats completion_B_C fixture_events) as [Hnd Hdeg];
    [by vm_compute|].
  split; [done|]. rewrite Hdeg. intros (ev & Hev & Hnot). revert ev Hev Hnot.
  apply (proj1 (Forall_forall (λ ev : event, ¬ (ev ∉ fixture_events)) _)).
  apply (bool_decide_unpack _). by vm_compute.
Defined.

(** X14.  score_reward on a batch pairs the responses with the reference
    events, the priority names and the optimal scores position by position,
    up to the shortest of the four lists.  It raises in three cases only: the
    division by zero, when at some position the optimal score is 0 and the
    completion passes the guard, and then nothing is written; OSError, when it
    logs (a score is positive and the random number is below 0.10) and the
    directory cannot be made or the file cannot be opened; IndexError, when it
    logs and there is no prompt, after two of the five writes.  When it
    returns, it returns the score of each position, and has written nothing or
    the five entries of one sample. *)
Theorem X14_score_reward_batch prompts responses events priority_events optimal_score w :
  let items := batch_items responses events priority_events optimal_score in
  let run := score_reward prompts responses events priority_events optimal_score w in
  (∀ i c v p o, items !! i = Some (c, v, p, o) ↔
     responses !! i = Some c ∧ events !! i = Some v ∧
     priority_events !! i = Some p ∧ optimal_score !! i = Some o) ∧
  (∀ e, run.1 = Err e ↔
     (e = ZeroDivisionError ∧
      ∃ i c v p, items !! i = Some (c, v, p, 0) ∧ ¬ degenerate (get_events c) v) ∨
     (∃ scores, Forall2 (λ item r, item_score item = Ok r) items scores ∧
        (∃ r, r ∈ scores ∧ (0 < r)%Qc) ∧ (random_random w < log_rate)%Qc ∧
        ((e = OSError ∧ (makedirs_ok w = false ∨ open_ok w = false)) ∨
         (e = IndexError ∧ makedirs_ok w = true ∧ open_ok w = true ∧ prompts = [])))) ∧
  (run.1 = Err ZeroDivisionError → run.2 = []) ∧
  (run.1 = Err OSError → run.2 = []) ∧
  (run.1 = Err IndexError → run.2 = [Separator; Clock (clock w)]) ∧
  (∀ scores, run.1 = Ok scores →
     Forall2 (λ item r, item_score item = Ok r) items scores ∧
     (run.2 = [] ∨
      ∃ p, head prompts = Some p ∧
        run.2 = [Separator; Clock (clock w); Prompt p; Scores scores; Completions responses])).
Proof.
  intros items run. split; [intros; apply batch_items_lookup|].
  assert (∀ i c v p, items !! i = Some (c, v, p, 0) → ¬ degenerate (get_events c) v →
            ∀ scores, ¬ Forall2 (λ item r, item_score item = Ok r) items scores) as Hzero.
  { intros i c v p Hi Hdeg scores H.
    eapply Forall2_lookup_l in H as (r & _ & Hr); [|done].
    assert (item_score (c, v, p, 0) = Err ZeroDivisionError) as E
      by by apply score_reward_one_Err.
    congruence. }
  unfold run, score_reward. fold items.
  destruct (traverse item_score items) as [scores|e0] eqn:Ht.
  - apply traverse_Ok_iff in Ht.
    assert (∀ scores', Forall2 (λ item r, item_score item = Ok r) items scores' →
              scores' = scores) as Hsame.
    { intros scores' H'. apply traverse_Ok_iff in Ht, H'. congruence. }
    destruct (wants_log scores w) eqn:Hw.
    + apply wants_log_spec in Hw as [Hpos Hdraw].
      assert (∀ e,
        (e = ZeroDivisionError ∧
         ∃ i c v p, items !! i = Some (c, v, p, 0) ∧ ¬ degenerate (get_events c) v) ∨
        (∃ scores, Forall2 (λ item r, item_score item = Ok r) items scores ∧
           (∃ r, r ∈ scores ∧ (0 < r)%Qc) ∧ (random_random w < log_rate)%Qc ∧
           ((e = OSError ∧ (makedirs_ok w = false ∨ open_ok w = false)) ∨
            (e = IndexError ∧ makedirs_ok w = true ∧ open_ok w = true ∧ prompts = []))) ↔
        (e = OSError ∧ (makedirs_ok w = false ∨ open_ok w = false)) ∨
        (e = IndexError ∧ makedirs_ok w = true ∧ open_ok w = true ∧ prompts = [])) as Hcases.
      { intros e. split.
        - intros [(_ & i & c & v & p0 & Hi & Hdeg)|(scores' & _ & _ & _ & Hcase)]; [|done].
          by destruct (Hzero i c v p0 Hi Hdeg scores).
        - intros Hcase. right. by exists scores. }
      unfold log_samples.
      destruct (makedirs_ok w) eqn:Hm; simpl;
        [destruct (open_ok w) eqn:Ho; simpl; [destruct prompts as [|p prompts']; simpl|]|].
      * split_and!; [|done..]. intros e. split.
        -- intros [= <-]. apply Hcases. by right.
        -- intros [(-> & [?|?])|(-> & _)]%Hcases; done.
      * split_and!; [|done..|].
        -- intros e. split; [done|].
           intros [(-> & [?|?])|(-> & _ & _ & ?)]%Hcases; done.
        -- intros scores' [= <-]. split; [done|]. right. by exists p.
      * split_and!; [|done..]. intros e. split.
        -- intros [= <-]. apply Hcases. left. split; [done|by right].
        -- intros [(-> & _)|(-> & _ & ? & _)]%Hcases; done.
      * split_and!; [|done..]. intros e. split.
        -- intros [= <-]. apply Hcases. left. split; [done|by left].
        -- intros [(-> & _)|(-> & ? & _)]%Hcases; done.
    + simpl. split_and!; [|done..|].
      * intros e. split; [done|].
        intros [(_ & i & c & v & p0 & Hi & Hdeg)|(scores' & H' & Hpos & Hdraw & _)].
        -- by destruct (Hzero i c v p0 Hi Hdeg scores).
        -- apply Hsame in H' as ->.
           assert (wants_log scores w = true) by by apply wants_log_spec. congruence.
      * intros scores' [= <-]. split; [done|by left].
  - pose proof Ht as (i & [[[c v] p] o] & Hi & He)%traverse_Err_inv.
    apply score_reward_one_Err in He as (-> & -> & Hdeg). simpl.
    split_and!; [|done..].
    intros e. split.
    + intros [= <-]. left. split; [done|]. by exists i, c, v, p.
    + intros [(-> & _)|(scores' & H' & _)]; [done|].
      by destruct (Hzero i c v p Hi Hdeg scores').
Qed.

Lemma X14_score_reward_batch_witness :
  (score_reward [] [completion_B_C] [fixture_events] [fixture_priorities]
     [fixture_optimal_score]
     {| random_random := 0; clock := "12:00:00"; makedirs_ok := true; open_ok := true |}).1
  = Err IndexError.
Proof.
  apply X14_score_reward_batch. right.
  exists [(Qc_of_Z 150 / Qc_of_Z 285 * Qc_of_Z 70)%Qc]. split_and!.
  - constructor; [by vm_compute|constructor].
  - eexists. split; [by left|]. by vm_compute.
  - by vm_compute.
  - right. done.
Defined.

(** X15.  An identifier made by generateSessionId is accepted by
    isValidSessionId exactly when the clock is not negative and the nine
    characters taken from the text of the random number, after its first two,
    are one or more lower-case letters or digits.  When the random number is
    0, whose text is [0], nothing is taken and the identifier made is
    rejected. *)
Theorem X15_generated_session_id_valid now random36 :
  (isValidSessionId (generateSessionId now random36) = true ↔
   0 ≤ now ∧ substr 2 9 random36 ≠ [] ∧
   Forall (λ c, lower_alnum c = true) (substr 2 9 random36)) ∧
  isValidSessionId (generateSessionId now "0") = false.
Proof.
  assert (isValidSessionId (generateSessionId now random36) = true ↔
          0 ≤ now ∧ substr 2 9 random36 ≠ [] ∧
          Forall (λ c, lower_alnum c = true) (substr 2 9 random36)) as H.
  { rewrite isValidSessionId_shape. unfold generateSessionId, js_integer. split.
    - intros (ds & suffix & E & Hne & Hds & Hne' & Hsuf).
      apply app_inv_head in E. destruct (Z.ltb_spec now 0) as [Hneg|Hpos].
      + destruct Hds as [|d ds Hd _]; [done|]. simpl in E. injection E as <- _. done.
      + apply digits_sep_inj in E as [_ <-]; [done| |done].
        eapply Forall_impl; [by apply decimal_digits|]. apply digits_is_digit.
    - intros (Hpos & Hne & Hsuf). rewrite (proj2 (Z.ltb_ge now 0)) by done.
      exists (decimal now), (substr 2 9 random36).
      split_and!; [done|apply decimal_nonempty| |done..].
      eapply Forall_impl; [by apply decimal_digits|]. apply digits_is_digit. }
  split; [done|].
  apply not_true_is_false. intros Hvalid.
  apply isValidSessionId_shape in Hvalid as (ds & suffix & E & Hne & Hds & Hne' & Hsuf).
  unfold generateSessionId, js_integer in E.
  apply app_inv_head in E. destruct (Z.ltb_spec now 0) as [Hneg|Hpos].
  - destruct Hds as [|d ds Hd _]; [done|]. simpl in E. injection E as <- _. done.
  - apply digits_sep_inj in E as [_ <-]; [done| |done].
    eapply Forall_impl; [by apply decimal_digits|]. apply digits_is_digit.
Qed.

(** X16.  formatSessionId shows every identifier that isValidSessionId
    accepts as the same text [session_...], and the text it returns is itself
    never accepted. *)
Theorem X16_format_session_id sessionId :
  (isValidSessionId sessionId = true → formatSessionId sessionId = "session_...") ∧
  isValidSessionId (formatSessionId sessionId) = false.
Proof.
  split.
  - intros (ds & suffix & -> & _)%isValidSessionId_shape. reflexivity.
  - apply not_true_is_false.
    intros (ds & suffix & E & _ & _ & Hne & Hsuf)%isValidSessionId_shape.
    unfold formatSessionId in E.
    destruct suffix as [|c suffix _] using rev_ind; [done|].
    apply Forall_app in Hsuf as [_ Hc]. apply Forall_inv in Hc.
    change ("..." : text) with (".." ++ ["."%char]) in E.
    change ("_"%char :: suffix ++ [c]) with (("_"%char :: suffix) ++ [c]) in E.
    rewrite !(assoc_L (++)) in E. apply app_inj_tail in E as [_ <-].
    by vm_compute in Hc.
Qed.

Lemma X16_format_session_id_witness :
  formatSessionId "session_1700000000000_k3j9x2a1b" = "session_...".
Proof. apply (X16_format_session_id "session_1700000000000_k3j9x2a1b"). by vm_compute. Defined.
